(** * Waypoint updater: nearest-waypoint search, head selection and
      look-ahead window of [ros/src/waypoint_updater/waypoint_updater.py].

    Python floats are idealised as real numbers: rounding, NaN and the
    infinities are outside the model.  Mutable attributes of the node
    are the fields of a [State] record that every callback threads
    through; a Python exception leaves the mutations made before it in
    place, so a computation returns the state together with either a
    value or the exception raised. *)

From Stdlib Require Import Reals Lra Lia ZArith String.
From stdpp Require Import base list strings pretty.

Local Open Scope R_scope.

(** ** Constants *)

Definition LOOKAHEAD_WPS : nat := 200.
Definition POSE_QUEUE_SIZE : nat := 50.
Definition VERBOSE : bool := true.
Definition MIN_UPDATE_DIST : R := 1 / 100.
Definition WP_UNDEFINED : Z := (-1)%Z.

(** [sys.float_info.max], the largest finite double. *)
Definition float_max : R := (2 - / 2 ^ 52) * 2 ^ 1023.

(** ** Messages *)

Record Point := mkPoint { px : R; py : R; pz : R }.
Record Quaternion := mkQuaternion { qx : R; qy : R; qz : R; qw : R }.
Record Pose := mkPose { position : Point; orientation : Quaternion }.
(** Of a header only the time stamp is modelled (in seconds). *)
Record Header := mkHeader { stamp : R }.
Record PoseStamped := mkPoseStamped { ps_header : Header; ps_pose : Pose }.
Record Vector3 := mkVector3 { vx : R; vy : R; vz : R }.
Record Twist := mkTwist { linear : Vector3; angular : Vector3 }.
Record TwistStamped := mkTwistStamped { ts_header : Header; ts_twist : Twist }.
Record Waypoint := mkWaypoint { wp_pose : PoseStamped; wp_twist : TwistStamped }.
Record Lane := mkLane { lane_header : Header; lane_waypoints : list Waypoint }.

(** Default-constructed messages: every numeric field is zero. *)
Definition Point_0 : Point := mkPoint 0 0 0.
Definition Quaternion_0 : Quaternion := mkQuaternion 0 0 0 0.
Definition Header_0 : Header := mkHeader 0.
Definition PoseStamped_0 : PoseStamped :=
  mkPoseStamped Header_0 (mkPose Point_0 Quaternion_0).
Definition Vector3_0 : Vector3 := mkVector3 0 0 0.
Definition TwistStamped_0 : TwistStamped :=
  mkTwistStamped Header_0 (mkTwist Vector3_0 Vector3_0).
Definition Waypoint_0 : Waypoint := mkWaypoint PoseStamped_0 TwistStamped_0.

(** The two kinds of object [get_position] and [get_orientation]
    dispatch on. *)
Inductive obj :=
| ObjPoseStamped (p : PoseStamped)
| ObjWaypoint (w : Waypoint).

Definition get_position (o : obj) : Point :=
  match o with
  | ObjPoseStamped p => position (ps_pose p)
  | ObjWaypoint w => position (ps_pose (wp_pose w))
  end.

Definition get_orientation (o : obj) : Quaternion :=
  match o with
  | ObjPoseStamped p => orientation (ps_pose p)
  | ObjWaypoint w => orientation (ps_pose (wp_pose w))
  end.

Definition distance (p1 p2 : Point) : R :=
  sqrt ((px p1 - px p2) ^ 2 + (py p1 - py p2) ^ 2 + (pz p1 - pz p2) ^ 2).

(** ** Nearest-waypoint scan

    The [for i, wp in enumerate(self.waypoints)] loop, with the loop
    variables [closest_id] and [closest_dist] as accumulators. *)

Fixpoint closest_scan (ego_pos : Point) (wps : list Waypoint) (i : nat)
    (closest_id : nat) (closest_dist : R) : nat * R :=
  match wps with
  | [] => (closest_id, closest_dist)
  | wp :: rest =>
      let dist := distance ego_pos (get_position (ObjWaypoint wp)) in
      if Rlt_dec dist closest_dist
      then closest_scan ego_pos rest (S i) i dist
      else closest_scan ego_pos rest (S i) closest_id closest_dist
  end.

Definition find_closest (ego_pos : Point) (wps : list Waypoint) : nat * R :=
  closest_scan ego_pos wps 0%nat 0%nat float_max.

(** ** Library functions used by the node *)

(** [math.atan2] on the reals (the signed zeros of IEEE arithmetic
    collapse to the single real zero, which behaves as [+0.0]). *)
Definition atan2 (y x : R) : R :=
  if Rlt_dec 0 x then atan (y / x)
  else if Rlt_dec x 0 then
         if Rle_dec 0 y then atan (y / x) + PI else atan (y / x) - PI
  else if Rlt_dec 0 y then PI / 2
  else if Rlt_dec y 0 then - (PI / 2)
  else 0.

(** Rounding towards zero, as in the quotient of [fmod]. *)
Definition Rtrunc (r : R) : Z :=
  if Rle_dec 0 r then Int_part r else (- Int_part (- r))%Z.

(** [math.fmod x y] for [y <> 0]: the remainder has the sign of [x]. *)
Definition fmod (x y : R) : R := x - IZR (Rtrunc (x / y)) * y.

(** [_EPS] of [tf.transformations]: four times the machine epsilon. *)
Definition tf_EPS : R := 4 * / 2 ^ 52.

(** [tf.transformations.quaternion_matrix]: the upper-left 3x3 block of
    the homogeneous rotation matrix of [(x, y, z, w)], row by row. *)
Definition quaternion_matrix (q : R * R * R * R)
  : (R * R * R) * (R * R * R) * (R * R * R) :=
  let '(x, y, z, w) := q in
  let nq := x * x + y * y + z * z + w * w in
  if Rlt_dec nq tf_EPS then ((1, 0, 0), (0, 1, 0), (0, 0, 1))
  else
    let s := sqrt (2 / nq) in
    let '(x, y, z, w) := (x * s, y * s, z * s, w * s) in
    ((1 - y * y - z * z, x * y - z * w, x * z + y * w),
     (x * y + z * w, 1 - x * x - z * z, y * z - x * w),
     (x * z - y * w, y * z + x * w, 1 - x * x - y * y)).

(** [tf.transformations.euler_from_matrix] for the default axes
    ['sxyz'] (i = 0, j = 1, k = 2, no parity, no repetition, static
    frame). *)
Definition euler_from_matrix (M : (R * R * R) * (R * R * R) * (R * R * R))
  : R * R * R :=
  let '((m00, m01, m02), (m10, m11, m12), (m20, m21, m22)) := M in
  let cy := sqrt (m00 * m00 + m10 * m10) in
  if Rlt_dec tf_EPS cy
  then (atan2 m21 m22, atan2 (- m20) cy, atan2 m10 m00)
  else (atan2 (- m12) m11, atan2 (- m20) cy, 0).

Definition euler_from_quaternion (q : R * R * R * R) : R * R * R :=
  euler_from_matrix (quaternion_matrix q).

(** ** Head selection

    Lines 105-127 of [publish_waypoints] without the log calls: the
    locals [heading], [ego_yaw], [angle] and [first_id] after the
    front-or-behind test, for a track of [n] waypoints whose closest
    one is [wp_closest]. *)

Record head_locals := mkHead
  { hl_heading : R; hl_ego_yaw : R; hl_angle : R; hl_first_id : nat }.

Definition select_first (ego : PoseStamped) (n closest_id : nat)
    (wp_closest : Waypoint) : head_locals :=
  let ego_pos := get_position (ObjPoseStamped ego) in
  let ego_orient := get_orientation (ObjPoseStamped ego) in
  let q := (qx ego_orient, qy ego_orient, qz ego_orient, qw ego_orient) in
  let euler_angles := euler_from_quaternion q in
  let ego_yaw := snd euler_angles in
  let first_id := closest_id in
  let pos_closest := get_position (ObjWaypoint wp_closest) in
  let heading := atan2 (py pos_closest - py ego_pos)
                       (px pos_closest - px ego_pos) in
  let heading := fmod (heading + 2 * PI) (2 * PI) in
  let ego_yaw := fmod (ego_yaw + 2 * PI) (2 * PI) in
  let angle := Rabs (ego_yaw - heading) in
  let angle := if Rlt_dec PI angle then 2 * PI - angle else angle in
  let first_id :=
    if Rlt_dec (PI / 2) angle then ((first_id + 1) mod n)%nat else first_id in
  mkHead heading ego_yaw angle first_id.

(** ** Node state and the exception monad *)

Inductive exn :=
| AssertionError (msg : string)
| AttributeError (attr : string)
| IndexError.

(** One constructor per [rospy.loginfo] call, carrying its arguments. *)
Inductive log_entry :=
| LogClosest (closest_id n : nat) (closest_dist : R) (wp : Waypoint)
| LogNext (first_id n : nat) (first_dist : R) (wp : Waypoint)
| LogFirstWP (heading ego_yaw angle : R) (next : bool)
| LogEgoPose (pose : PoseStamped) (dist_travelled : R)
| LogTraffic (wp_index : Z) (pos : Point)
| LogObstacle (wp_index : Z) (pos : Point).

(** The attributes of a [WaypointUpdater]; [published] is the sequence
    of messages handed to [final_waypoints_pub.publish] and [log] the
    sequence of log calls, both oldest first. *)
Record State := mkState
  { start_time : R;
    ego_pose : PoseStamped;
    ego_pose_queue : list PoseStamped;
    waypoints : list Waypoint;
    wp_traffic_light : Z;
    wp_obstacle : Z;
    final_waypoints : Lane;
    v_max : R;
    published : list Lane;
    log : list log_entry }.

Definition set_ego_pose (v : PoseStamped) (s : State) : State :=
  mkState (start_time s) v (ego_pose_queue s) (waypoints s)
    (wp_traffic_light s) (wp_obstacle s) (final_waypoints s) (v_max s)
    (published s) (log s).
Definition set_ego_pose_queue (v : list PoseStamped) (s : State) : State :=
  mkState (start_time s) (ego_pose s) v (waypoints s)
    (wp_traffic_light s) (wp_obstacle s) (final_waypoints s) (v_max s)
    (published s) (log s).
Definition set_waypoints (v : list Waypoint) (s : State) : State :=
  mkState (start_time s) (ego_pose s) (ego_pose_queue s) v
    (wp_traffic_light s) (wp_obstacle s) (final_waypoints s) (v_max s)
    (published s) (log s).
Definition set_wp_traffic_light (v : Z) (s : State) : State :=
  mkState (start_time s) (ego_pose s) (ego_pose_queue s) (waypoints s)
    v (wp_obstacle s) (final_waypoints s) (v_max s)
    (published s) (log s).
Definition set_wp_obstacle (v : Z) (s : State) : State :=
  mkState (start_time s) (ego_pose s) (ego_pose_queue s) (waypoints s)
    (wp_traffic_light s) v (final_waypoints s) (v_max s)
    (published s) (log s).
Definition set_final_waypoints (v : Lane) (s : State) : State :=
  mkState (start_time s) (ego_pose s) (ego_pose_queue s) (waypoints s)
    (wp_traffic_light s) (wp_obstacle s) v (v_max s)
    (published s) (log s).
Definition set_v_max (v : R) (s : State) : State :=
  mkState (start_time s) (ego_pose s) (ego_pose_queue s) (waypoints s)
    (wp_traffic_light s) (wp_obstacle s) (final_waypoints s) v
    (published s) (log s).
Definition set_published (v : list Lane) (s : State) : State :=
  mkState (start_time s) (ego_pose s) (ego_pose_queue s) (waypoints s)
    (wp_traffic_light s) (wp_obstacle s) (final_waypoints s) (v_max s)
    v (log s).
Definition set_log (v : list log_entry) (s : State) : State :=
  mkState (start_time s) (ego_pose s) (ego_pose_queue s) (waypoints s)
    (wp_traffic_light s) (wp_obstacle s) (final_waypoints s) (v_max s)
    (published s) v.

(** A method body: from the state before the call to the state after
    it and either the exception that ended it or its value. *)
Definition Py (A : Type) : Type := State -> State * (exn + A).

Definition ret {A} (a : A) : Py A := fun s => (s, inr a).
Definition raise {A} (e : exn) : Py A := fun s => (s, inl e).
Definition bind {A B} (m : Py A) (k : A -> Py B) : Py B :=
  fun s => match m s with
           | (s', inr a) => k a s'
           | (s', inl e) => (s', inl e)
           end.
Definition self : Py State := fun s => (s, inr s).
Definition update (f : State -> State) : Py unit := fun s => (f s, inr tt).

Notation "x <- m ;; k" := (bind m (fun x => k))
  (at level 100, m at next level, right associativity).
Notation "m ;;; k" := (bind m (fun _ => k))
  (at level 100, right associativity).

Definition py_assert (b : bool) (msg : string) : Py unit :=
  if b then ret tt else raise (AssertionError msg).

Definition loginfo (e : log_entry) : Py unit :=
  update (fun s => set_log (log s ++ [e]) s).

Definition when (b : bool) (m : Py unit) : Py unit :=
  if b then m else ret tt.

(** [l[i]] for a non-negative index. *)
Definition index {A} (l : list A) (i : nat) : Py A :=
  match l !! i with
  | Some a => ret a
  | None => raise IndexError
  end.

(** [l[i] = a] for a non-negative index. *)
Definition store_final_waypoint (i : nat) (wp : Waypoint) : Py unit :=
  s <- self ;;
  let fw := final_waypoints s in
  if decide (i < length (lane_waypoints fw))%nat
  then update (set_final_waypoints
                 (mkLane (lane_header fw) (<[i := wp]> (lane_waypoints fw))))
  else raise IndexError.

(** [collections.deque.append] on a deque of bounded length. *)
Definition deque_append {A} (maxlen : nat) (q : list A) (a : A) : list A :=
  let q' := q ++ [a] in drop (length q' - maxlen) q'.

(** [l[i]] for a Python integer: a negative index counts from the end. *)
Definition index_int {A} (l : list A) (i : Z) : Py A :=
  if decide (0 <= i)%Z then index l (Z.to_nat i)
  else if decide (- Z.of_nat (length l) <= i)%Z
       then index l (Z.to_nat (Z.of_nat (length l) + i))
       else raise IndexError.

(** [self.waypoint]: no method of the class assigns an attribute of
    this name (the track is [self.waypoints]), so reading it raises. *)
Definition self_waypoint : Py (list Waypoint) :=
  raise (AttributeError "waypoint").

(** ** Methods *)

(** [__init__] up to [rospy.spin()], started at time [now]. *)
Definition init (now : R) : State :=
  {| start_time := now;
     ego_pose := PoseStamped_0;
     ego_pose_queue := [];
     waypoints := [];
     wp_traffic_light := WP_UNDEFINED;
     wp_obstacle := WP_UNDEFINED;
     final_waypoints := mkLane Header_0 (replicate LOOKAHEAD_WPS Waypoint_0);
     v_max := 0;
     published := [];
     log := [] |}.

Definition check_waypoint_index (wp_index : Z) : Py unit :=
  s <- self ;;
  py_assert (bool_decide (0 <= wp_index)%Z
             && bool_decide (wp_index < Z.of_nat (length (waypoints s)))%Z)
            ("Invalid waypoint index (" +:+ pretty wp_index +:+ ")")%string.

(** The [for i in range(LOOKAHEAD_WPS)] loop over the remaining values
    [range_] of [i]; returns the final value of [first_id]. *)
Fixpoint window_loop (range_ : list nat) (first_id : nat) : Py nat :=
  match range_ with
  | [] => ret first_id
  | i :: range' =>
      s <- self ;;
      wp <- index (waypoints s) first_id ;;
      store_final_waypoint i wp ;;;
      window_loop range' ((first_id + 1) mod length (waypoints s))%nat
  end.

(** Lines 144-154 of [publish_waypoints]: stamp the message, fill it
    from [first_id] on and publish it. *)
Definition publish_from (first_id : nat) : Py unit :=
  update (fun s =>
            set_final_waypoints
              (mkLane (mkHeader (stamp (ps_header (ego_pose s))))
                      (lane_waypoints (final_waypoints s))) s) ;;;
  window_loop (seq 0 LOOKAHEAD_WPS) first_id ;;;
  update (fun s => set_published (published s ++ [final_waypoints s]) s).

Definition publish_waypoints : Py unit :=
  s <- self ;;
  py_assert (bool_decide (length (waypoints s) ≠ 0%nat))
            "Track waypoints not set" ;;;
  let ego_pos := get_position (ObjPoseStamped (ego_pose s)) in
  let '(closest_id, closest_dist) := find_closest ego_pos (waypoints s) in
  when VERBOSE
    (wp <- index (waypoints s) closest_id ;;
     loginfo (LogClosest closest_id (length (waypoints s)) closest_dist wp)) ;;;
  wp_closest <- index (waypoints s) closest_id ;;
  let h := select_first (ego_pose s) (length (waypoints s)) closest_id
             wp_closest in
  let first_id := hl_first_id h in
  (if Rlt_dec (PI / 2) (hl_angle h)
   then when VERBOSE
          (first_wp <- index (waypoints s) first_id ;;
           let first_dist :=
             distance ego_pos (get_position (ObjWaypoint first_wp)) in
           loginfo (LogNext first_id (length (waypoints s)) first_dist
                      first_wp))
   else ret tt) ;;;
  when VERBOSE
    (loginfo (LogFirstWP (hl_heading h) (hl_ego_yaw h) (hl_angle h)
                (bool_decide (first_id ≠ closest_id)))) ;;;
  publish_from first_id.

Definition pose_cb (msg : PoseStamped) : Py unit :=
  s <- self ;;
  let dist_travelled :=
    distance (get_position (ObjPoseStamped msg))
             (get_position (ObjPoseStamped (ego_pose s))) in
  when VERBOSE (loginfo (LogEgoPose msg dist_travelled)) ;;;
  if Rlt_dec dist_travelled MIN_UPDATE_DIST then ret tt
  else
    update (set_ego_pose msg) ;;;
    update (fun s =>
              set_ego_pose_queue
                (deque_append POSE_QUEUE_SIZE (ego_pose_queue s) (ego_pose s))
                s) ;;;
    publish_waypoints.

(** [velocity] is the value of the ROS parameter
    [/waypoint_loader/velocity] at the time of the call. *)
Definition waypoints_cb (msg : Lane) (velocity : R) : Py unit :=
  update (set_waypoints (lane_waypoints msg)) ;;;
  update (set_v_max (velocity / 3.6)).

Definition traffic_cb (data : Z) : Py unit :=
  update (set_wp_traffic_light data) ;;;
  s <- self ;;
  if decide (wp_traffic_light s ≠ WP_UNDEFINED)
  then
    check_waypoint_index (wp_traffic_light s) ;;;
    when VERBOSE
      (wps <- self_waypoint ;;
       wp <- index_int wps (wp_traffic_light s) ;;
       loginfo (LogTraffic (wp_traffic_light s)
                  (get_position (ObjWaypoint wp))))
  else ret tt.

Definition obstacle_cb (data : Z) : Py unit :=
  update (set_wp_obstacle data) ;;;
  s <- self ;;
  if decide (wp_obstacle s ≠ WP_UNDEFINED)
  then
    check_waypoint_index (wp_obstacle s) ;;;
    when VERBOSE
      (wps <- self_waypoint ;;
       wp <- index_int wps (wp_obstacle s) ;;
       loginfo (LogObstacle (wp_obstacle s)
                  (get_position (ObjWaypoint wp))))
  else ret tt.

(** ** Methods no callback calls *)

Definition get_waypoint_velocity (wp : Z) : Py R :=
  check_waypoint_index wp ;;;
  s <- self ;;
  w <- index_int (waypoints s) wp ;;
  ret (vx (linear (ts_twist (wp_twist w)))).

(** The message of the interval assertion in [distance_path]. *)
Definition invalid_interval_msg (wp1 wp2 : Z) : string :=
  "Cannot get distance between waypoints (invalid interval: "
  +:+ pretty wp1 +:+ " - " +:+ pretty wp2 +:+ ")".

(** The [for i in range(wp1, wp2)] loop of [distance_path] over the
    remaining values [range_] of [i], with the running sum [dist]. *)
Fixpoint path_loop (range_ : list Z) (dist : R) : Py R :=
  match range_ with
  | [] => ret dist
  | i :: range' =>
      s <- self ;;
      a <- index_int (waypoints s) i ;;
      b <- index_int (waypoints s) (i + 1) ;;
      path_loop range'
        (dist + distance (position (ps_pose (wp_pose a)))
                         (position (ps_pose (wp_pose b))))
  end.

Definition distance_path (wp1 wp2 : Z) : Py R :=
  check_waypoint_index wp1 ;;;
  check_waypoint_index wp2 ;;;
  py_assert (bool_decide (wp1 < wp2)%Z) (invalid_interval_msg wp1 wp2) ;;;
  path_loop (seqZ wp1 (wp2 - wp1)) 0.

(** ** The event loop

    [rospy.spin()] runs one callback per incoming message, each to
    completion; an exception ends the callback and leaves the state as
    the callback had made it. *)

Inductive event :=
| EvPose (msg : PoseStamped)
| EvWaypoints (msg : Lane) (velocity : R)
| EvTraffic (data : Z)
| EvObstacle (data : Z).

Definition callback (e : event) : Py unit :=
  match e with
  | EvPose msg => pose_cb msg
  | EvWaypoints msg velocity => waypoints_cb msg velocity
  | EvTraffic data => traffic_cb data
  | EvObstacle data => obstacle_cb data
  end.

Definition spin (s : State) (es : list event) : State :=
  fold_left (fun s e => fst (callback e s)) es s.

(** ** The window as the specification words it

    [window[i] = track[(head + i) mod N]] for [i] in [[0, K)]. *)

#[global] Instance Waypoint_inhabited : Inhabited Waypoint := populate Waypoint_0.

Definition build_window (track : list Waypoint) (head K : nat)
  : list Waypoint :=
  (λ i, track !!! ((head + i) mod length track)%nat) <$> seq 0 K.

(** ** Auxiliary notions for the statements *)

(** Distance from [ego_pos] to a waypoint, as the scan computes it. *)
Definition wp_dist (ego_pos : Point) (wp : Waypoint) : R :=
  distance ego_pos (get_position (ObjWaypoint wp)).

(** What the scan has found when it stops at index [k] of the list it
    was started on with bound [d0]: a waypoint strictly below the
    bound, no farther than any other and strictly nearer than all
    before it. *)
Definition scan_hit (ego_pos : Point) (wps : list Waypoint) (d0 : R)
    (k : nat) (d : R) : Prop :=
  ∃ wp, wps !! k = Some wp ∧ d = wp_dist ego_pos wp ∧ d < d0 ∧
        (∀ j wpj, wps !! j = Some wpj → d <= wp_dist ego_pos wpj) ∧
        (∀ j wpj, (j < k)%nat → wps !! j = Some wpj →
                  d < wp_dist ego_pos wpj).

(** The state with the waypoint list of the outgoing message replaced. *)
Definition with_window (l : list Waypoint) (s : State) : State :=
  set_final_waypoints (mkLane (lane_header (final_waypoints s)) l) s.

(** The invariant [__init__] establishes for the outgoing message. *)
Definition buffer_ok (s : State) : Prop :=
  length (lane_waypoints (final_waypoints s)) = LOOKAHEAD_WPS.

(** The locals of [publish_waypoints] as functions of the state it is
    called in (meaningful when the track is not empty). *)
Definition closest_of (s : State) : nat * R :=
  find_closest (get_position (ObjPoseStamped (ego_pose s))) (waypoints s).

Definition head_of (s : State) : head_locals :=
  select_first (ego_pose s) (length (waypoints s)) (closest_of s).1
    (waypoints s !!! (closest_of s).1).

(** The log lines of one successful [publish_waypoints]. *)
Definition publish_log (s : State) : list log_entry :=
  let ego_pos := get_position (ObjPoseStamped (ego_pose s)) in
  let n := length (waypoints s) in
  let h := head_of s in
  [LogClosest (closest_of s).1 n (closest_of s).2
     (waypoints s !!! (closest_of s).1)]
  ++ (if Rlt_dec (PI / 2) (hl_angle h)
      then [LogNext (hl_first_id h) n
              (distance ego_pos
                 (get_position (ObjWaypoint (waypoints s !!! hl_first_id h))))
              (waypoints s !!! hl_first_id h)]
      else [])
  ++ [LogFirstWP (hl_heading h) (hl_ego_yaw h) (hl_angle h)
        (bool_decide (hl_first_id h ≠ (closest_of s).1))].

(** The message a publication from head index [head] sends. *)
Definition window_lane (s : State) (head : nat) : Lane :=
  mkLane (mkHeader (stamp (ps_header (ego_pose s))))
         (build_window (waypoints s) head LOOKAHEAD_WPS).

(** The state after a publication of [lane]. *)
Definition after_publish (lane : Lane) (s : State) : State :=
  set_published (published s ++ [lane]) (set_final_waypoints lane s).

(** The state in which [pose_cb] calls [publish_waypoints] once it has
    accepted [msg]: the pose is logged, stored and queued. *)
Definition accept_pose (msg : PoseStamped) (s : State) : State :=
  let d := distance (get_position (ObjPoseStamped msg))
                    (get_position (ObjPoseStamped (ego_pose s))) in
  set_ego_pose_queue (deque_append POSE_QUEUE_SIZE (ego_pose_queue s) msg)
    (set_ego_pose msg (set_log (log s ++ [LogEgoPose msg d]) s)).

(** The message of the assertion in [check_waypoint_index]. *)
Definition invalid_index_msg (wp_index : Z) : string :=
  "Invalid waypoint index (" +:+ pretty wp_index +:+ ")".

(** A pose within the debounce distance of the origin. *)
Definition near_origin (msg : PoseStamped) : Prop :=
  distance (get_position (ObjPoseStamped msg)) Point_0 < MIN_UPDATE_DIST.

(** An event that cannot make the freshly started node accept a pose. *)
Definition no_pose_accepted (e : event) : Prop :=
  match e with
  | EvPose msg => near_origin msg
  | _ => True
  end.

(** The node has not yet accepted any pose. *)
Definition pristine (s : State) : Prop :=
  ego_pose s = PoseStamped_0 ∧ ego_pose_queue s = [] ∧ published s = [].

(** The position of the waypoint at a valid index of a track. *)
Definition track_pos (track : list Waypoint) (i : Z) : Point :=
  position (ps_pose (wp_pose (track !!! Z.to_nat i))).

(** The length of the leg from waypoint [i] to waypoint [i + 1]. *)
Definition leg (track : list Waypoint) (i : Z) : R :=
  distance (track_pos track i) (track_pos track (i + 1)).

(** The sum [distance_path] accumulates over the legs [l], from 0. *)
Definition path_sum (track : list Waypoint) (l : list Z) : R :=
  fold_left (λ acc i, acc + leg track i) l 0.

(** A valid waypoint index, as [check_waypoint_index] tests it. *)
Definition valid_index (s : State) (i : Z) : Prop :=
  (0 <= i < Z.of_nat (length (waypoints s)))%Z.

(** Successive entries of the pose history lie at least the debounce
    distance apart. *)
Definition spaced (q : list PoseStamped) : Prop :=
  ∀ i a b, q !! i = Some a → q !! S i = Some b →
    MIN_UPDATE_DIST
    <= distance (get_position (ObjPoseStamped b))
                (get_position (ObjPoseStamped a)).

(** What every callback keeps true of the pose history. *)
Definition history_ok (s : State) : Prop :=
  (length (ego_pose_queue s) <= POSE_QUEUE_SIZE)%nat ∧
  spaced (ego_pose_queue s) ∧
  (ego_pose_queue s = [] ∧ ego_pose s = PoseStamped_0
   ∨ last (ego_pose_queue s) = Some (ego_pose s)).

(** A published message of full length. *)
Definition full_lane (lane : Lane) : Prop :=
  length (lane_waypoints lane) = LOOKAHEAD_WPS.

(** The number of pose messages among some events. *)
Fixpoint pose_events (es : list event) : nat :=
  match es with
  | [] => 0
  | EvPose _ :: es' => S (pose_events es')
  | _ :: es' => pose_events es'
  end.

(** ** Scenario data: the unit square track *)

Definition wp_at (x y : R) : Waypoint :=
  mkWaypoint (mkPoseStamped Header_0 (mkPose (mkPoint x y 0) Quaternion_0))
             TwistStamped_0.

Definition square_track : list Waypoint :=
  [wp_at 0 0; wp_at 1 0; wp_at 1 1; wp_at 0 1].

(** A pose at [(x, y, 0)] with the identity orientation (yaw 0). *)
Definition pose_at (x y : R) : PoseStamped :=
  mkPoseStamped Header_0 (mkPose (mkPoint x y 0) (mkQuaternion 0 0 0 1)).

(** The node after start-up at time 0 and the delivery of the square
    track (with a velocity parameter of 40 km/h). *)
Definition square_loaded : State :=
  (waypoints_cb (mkLane Header_0 square_track) 40 (init 0)).1.

(** * Properties *)

(** ** Facts about the real-number library functions *)

Lemma float_max_ge_4 : 4 <= float_max.
Proof.
  unfold float_max.
  assert (H52 : 1 <= 2 ^ 52) by (apply pow_R1_Rle; lra).
  assert (Hinv : / 2 ^ 52 <= 1).
  { rewrite <- Rinv_1. apply Rinv_le_contravar; lra. }
  assert (H1023 : 2 ^ 2 <= 2 ^ 1023) by (apply Rle_pow; [lra|lia]).
  replace (2 ^ 2) with 4 in H1023 by (simpl; lra).
  nra.
Qed.

Lemma sqrt_lt_float_max (x : R) : x < 16 → sqrt x < float_max.
Proof.
  intros Hx. pose proof float_max_ge_4.
  destruct (Rle_dec 0 x) as [H0|H0].
  - apply Rlt_le_trans with (sqrt 16); [by apply sqrt_lt_1_alt|].
    replace 16 with (4 * 4) by lra. rewrite sqrt_square; lra.
  - rewrite sqrt_neg_0; lra.
Qed.

Lemma atan2_range (y x : R) : - PI < atan2 y x <= PI.
Proof.
  pose proof PI_RGT_0 as Hpi. pose proof (atan_bound (y / x)) as Hb.
  unfold atan2.
  destruct (Rlt_dec 0 x) as [Hx|Hx]; [lra|].
  destruct (Rlt_dec x 0) as [Hx'|Hx'].
  - destruct (Rle_dec 0 y) as [Hy|Hy].
    + assert (atan (y / x) <= 0); [|lra].
      destruct (Req_dec y 0) as [->|Hy0].
      * unfold Rdiv. rewrite Rmult_0_l, atan_0. lra.
      * left. rewrite <- atan_0. apply atan_increasing.
        apply Rdiv_pos_neg; lra.
    + assert (0 < atan (y / x)); [|lra].
      rewrite <- atan_0. apply atan_increasing.
      apply Rdiv_neg_neg; lra.
  - destruct (Rlt_dec 0 y); [lra|]. destruct (Rlt_dec y 0); lra.
Qed.

Lemma Rtrunc_unique (q : R) (n : Z) :
  0 <= IZR n → IZR n <= q < IZR n + 1 → Rtrunc q = n.
Proof.
  intros Hn Hq. unfold Rtrunc. destruct (Rle_dec 0 q) as [_|Hneg]; [|lra].
  symmetry. apply Int_part_spec. lra.
Qed.

Lemma fmod_unique (x y : R) (n : Z) :
  0 < y → 0 <= IZR n → IZR n * y <= x < (IZR n + 1) * y →
  fmod x y = x - IZR n * y.
Proof.
  intros Hy Hn Hx. unfold fmod. rewrite (Rtrunc_unique _ n); [done|done|].
  assert (Hxy : x = x / y * y) by (field; lra).
  set (q := x / y) in *. rewrite Hxy in Hx. split; nra.
Qed.

Lemma fmod_range (x y : R) : 0 <= x → 0 < y → 0 <= fmod x y < y.
Proof.
  intros Hx Hy. unfold fmod, Rtrunc.
  assert (Hq : 0 <= x / y).
  { apply Rmult_le_pos; [done|]. left. by apply Rinv_0_lt_compat. }
  destruct (Rle_dec 0 (x / y)) as [_|]; [|lra].
  destruct (base_Int_part (x / y)) as [Hlo Hhi].
  assert (Hxy : x = x / y * y) by (field; lra).
  set (q := x / y) in *. set (n := IZR (Int_part q)) in *.
  rewrite Hxy at 1 2. split; nra.
Qed.

(** Shifting an angle of [(-PI, PI]] by a full turn and reducing it
    lands in [[0, 2 PI)]. *)
Lemma normalize_range (a : R) :
  - PI < a <= PI → 0 <= fmod (a + 2 * PI) (2 * PI) < 2 * PI.
Proof.
  intros Ha. pose proof PI_RGT_0. apply fmod_range; lra.
Qed.

Lemma euler_yaw_range (q : R * R * R * R) :
  - PI < snd (euler_from_quaternion q) <= PI.
Proof.
  unfold euler_from_quaternion, euler_from_matrix.
  destruct (quaternion_matrix q) as [[[[m00 m01] m02] [[m10 m11] m12]] [[m20 m21] m22]].
  destruct (Rlt_dec _ _); simpl.
  - apply atan2_range.
  - pose proof PI_RGT_0. lra.
Qed.

(** ** Nearest-waypoint scan *)

Section Scan.

Variable ego_pos : Point.

Lemma closest_scan_spec (wps : list Waypoint) : ∀ i0 c0 d0,
  (closest_scan ego_pos wps i0 c0 d0 = (c0, d0) ∧
   ∀ j wpj, wps !! j = Some wpj → d0 <= wp_dist ego_pos wpj)
  ∨ (∃ k, (closest_scan ego_pos wps i0 c0 d0).1 = (i0 + k)%nat ∧
          scan_hit ego_pos wps d0 k (closest_scan ego_pos wps i0 c0 d0).2).
Proof.
  induction wps as [|wp rest IH]; intros i0 c0 d0; cbn [closest_scan].
  - left. split; [done|]. intros j wpj Hj. by rewrite lookup_nil in Hj.
  - fold (wp_dist ego_pos wp).
    destruct (Rlt_dec (wp_dist ego_pos wp) d0) as [Hlt|Hge].
    + right.
      destruct (IH (S i0) i0 (wp_dist ego_pos wp))
        as [[-> Hall]|(k & Hk & Hhit)].
      * exists 0%nat. split; [simpl; lia|]. exists wp. simpl.
        repeat split; [done| |intros; lia].
        intros [|j] wpj Hj; simpl in Hj.
        -- injection Hj as <-. lra.
        -- eauto.
      * exists (S k). split; [rewrite Hk; lia|].
        destruct Hhit as (w & Hw & Hd & Hlt' & Hmin & Hfirst).
        exists w. simpl. repeat split; [done|done|lra| |].
        -- intros [|j] wpj Hj; simpl in Hj.
           ++ injection Hj as <-. lra.
           ++ eauto.
        -- intros [|j] wpj Hjk Hj; simpl in Hj.
           ++ injection Hj as <-. lra.
           ++ apply (Hfirst j); [lia|done].
    + destruct (IH (S i0) c0 d0) as [[-> Hall]|(k & Hk & Hhit)].
      * left. split; [done|]. intros [|j] wpj Hj; simpl in Hj.
        -- injection Hj as <-. lra.
        -- eauto.
      * right. exists (S k). split; [rewrite Hk; lia|].
        destruct Hhit as (w & Hw & Hd & Hlt' & Hmin & Hfirst).
        exists w. simpl. repeat split; [done|done|done| |].
        -- intros [|j] wpj Hj; simpl in Hj.
           ++ injection Hj as <-. lra.
           ++ eauto.
        -- intros [|j] wpj Hjk Hj; simpl in Hj.
           ++ injection Hj as <-. lra.
           ++ apply (Hfirst j); [lia|done].
Qed.

(** The scan never leaves the track, whatever the distances are. *)
Lemma find_closest_lt (track : list Waypoint) :
  track ≠ [] → ((find_closest ego_pos track).1 < length track)%nat.
Proof.
  intros Hne. unfold find_closest.
  destruct (closest_scan_spec track 0 0 float_max)
    as [[-> _]|(k & -> & w & Hw & _)].
  - destruct track; [done|simpl; lia].
  - by eapply lookup_lt_Some.
Qed.

(** On a non-empty track whose distances are finite doubles the scan
    always hits. *)
Lemma find_closest_hit (track : list Waypoint) :
  track ≠ [] →
  Forall (λ wp, wp_dist ego_pos wp < float_max) track →
  scan_hit ego_pos track float_max (find_closest ego_pos track).1
                                   (find_closest ego_pos track).2.
Proof.
  intros Hne Hfin. unfold find_closest.
  destruct (closest_scan_spec track 0 0 float_max)
    as [[_ Hall]|(k & Hk & Hhit)].
  - destruct track as [|wp rest]; [done|].
    apply Forall_cons in Hfin as [Hwp _].
    specialize (Hall 0%nat wp eq_refl). lra.
  - by rewrite Hk.
Qed.

(** A waypoint that is strictly nearer than every other one is the one
    the scan returns. *)
Lemma find_closest_unique (track : list Waypoint) (k : nat) (wp : Waypoint) :
  Forall (λ wp, wp_dist ego_pos wp < float_max) track →
  track !! k = Some wp →
  (∀ j wpj, j ≠ k → track !! j = Some wpj →
            wp_dist ego_pos wp < wp_dist ego_pos wpj) →
  find_closest ego_pos track = (k, wp_dist ego_pos wp).
Proof.
  intros Hfin Hk Hstrict.
  assert (Hne : track ≠ []) by (intros ->; by rewrite lookup_nil in Hk).
  destruct (find_closest_hit track Hne Hfin)
    as (w & Hw & Hd & _ & Hmin & _).
  destruct (find_closest ego_pos track) as [c d]; simpl in *.
  destruct (decide (c = k)) as [->|Hck].
  - rewrite Hk in Hw. injection Hw as <-. by rewrite Hd.
  - specialize (Hmin k wp Hk). specialize (Hstrict c w Hck Hw). lra.
Qed.

End Scan.

(** C1: on a track of length [N >= 1] whose distances to the ego
    position are finite doubles (below [sys.float_info.max]), the index
    returned by the nearest-waypoint scan is a valid index, the
    returned distance is the distance to the waypoint at that index,
    that distance is at most the distance to the waypoint at any index
    [j] of the track, and every index before the returned one is
    strictly farther, so the returned index is the smallest one that
    achieves the minimum. *)
Theorem find_closest_is_first_minimum (ego_pos : Point) (track : list Waypoint) :
  (1 <= length track)%nat →
  Forall (λ wp, distance ego_pos (get_position (ObjWaypoint wp)) < float_max)
         track →
  ∃ wp,
    track !! (find_closest ego_pos track).1 = Some wp ∧
    ((find_closest ego_pos track).1 < length track)%nat ∧
    (find_closest ego_pos track).2
      = distance ego_pos (get_position (ObjWaypoint wp)) ∧
    (∀ j wpj, track !! j = Some wpj →
       distance ego_pos (get_position (ObjWaypoint wp))
       <= distance ego_pos (get_position (ObjWaypoint wpj))) ∧
    (∀ j wpj, (j < (find_closest ego_pos track).1)%nat →
       track !! j = Some wpj →
       distance ego_pos (get_position (ObjWaypoint wp))
       < distance ego_pos (get_position (ObjWaypoint wpj))).
Proof.
  intros Hlen Hfin.
  assert (Hne : track ≠ []) by (intros ->; simpl in Hlen; lia).
  destruct (find_closest_hit ego_pos track Hne Hfin)
    as (w & Hw & Hd & _ & Hmin & Hfirst).
  exists w. split; [done|]. split; [by eapply lookup_lt_Some|].
  split; [done|]. fold (wp_dist ego_pos w). rewrite <- Hd. split.
  - intros j wpj Hj. apply (Hmin j wpj Hj).
  - intros j wpj Hlt Hj. apply (Hfirst j wpj Hlt Hj).
Qed.

(** ** The square track seen from [(1.05, 0, 0)] *)

Lemma square_finite_from_B :
  Forall (λ wp, wp_dist (mkPoint 1.05 0 0) wp < float_max) square_track.
Proof.
  unfold square_track.
  repeat constructor;
    unfold wp_dist, distance; cbn [get_position wp_at wp_pose ps_pose position px py pz];
    apply sqrt_lt_float_max; lra.
Qed.

Lemma square_closest_from_B :
  find_closest (mkPoint 1.05 0 0) square_track
  = (1%nat, wp_dist (mkPoint 1.05 0 0) (wp_at 1 0)).
Proof.
  apply find_closest_unique; [apply square_finite_from_B|done|].
  intros j wpj Hj Hlook.
  destruct j as [|[|[|[|j]]]]; simpl in Hlook; try done;
    injection Hlook as <-;
    unfold wp_dist, distance; cbn [get_position wp_at wp_pose ps_pose position px py pz];
    apply sqrt_lt_1_alt; lra.
Qed.

Lemma find_closest_is_first_minimum_witness :
  (1 <= length square_track)%nat ∧
  Forall (λ wp, distance (mkPoint 1.05 0 0) (get_position (ObjWaypoint wp))
                < float_max) square_track ∧
  ∃ wp,
    square_track !! (find_closest (mkPoint 1.05 0 0) square_track).1 = Some wp ∧
    ((find_closest (mkPoint 1.05 0 0) square_track).1 < length square_track)%nat ∧
    (find_closest (mkPoint 1.05 0 0) square_track).2
      = distance (mkPoint 1.05 0 0) (get_position (ObjWaypoint wp)) ∧
    (∀ j wpj, square_track !! j = Some wpj →
       distance (mkPoint 1.05 0 0) (get_position (ObjWaypoint wp))
       <= distance (mkPoint 1.05 0 0) (get_position (ObjWaypoint wpj))) ∧
    (∀ j wpj, (j < (find_closest (mkPoint 1.05 0 0) square_track).1)%nat →
       square_track !! j = Some wpj →
       distance (mkPoint 1.05 0 0) (get_position (ObjWaypoint wp))
       < distance (mkPoint 1.05 0 0) (get_position (ObjWaypoint wpj))).
Proof.
  assert (Hlen : (1 <= length square_track)%nat) by (simpl; lia).
  pose proof square_finite_from_B as Hfin.
  split; [exact Hlen|]. split; [exact Hfin|].
  exact (find_closest_is_first_minimum (mkPoint 1.05 0 0) square_track Hlen Hfin).
Defined.

(** ** Head selection *)

Lemma Rabs_diff_lt (a b m : R) : 0 <= a < m → 0 <= b < m → 0 <= Rabs (a - b) < m.
Proof.
  intros Ha Hb. split; [apply Rabs_pos|].
  unfold Rabs. destruct (Rcase_abs (a - b)); lra.
Qed.

(** The test either keeps [closest_id] or steps to its cyclic successor. *)
Lemma select_first_id (ego : PoseStamped) (n closest_id : nat)
    (wp_closest : Waypoint) :
  hl_first_id (select_first ego n closest_id wp_closest)
  = if Rlt_dec (PI / 2) (hl_angle (select_first ego n closest_id wp_closest))
    then ((closest_id + 1) mod n)%nat
    else closest_id.
Proof. reflexivity. Qed.

Lemma select_first_lt (ego : PoseStamped) (n closest_id : nat)
    (wp_closest : Waypoint) :
  (closest_id < n)%nat →
  (hl_first_id (select_first ego n closest_id wp_closest) < n)%nat.
Proof.
  intros Hc. rewrite select_first_id.
  destruct (Rlt_dec _ _); [apply Nat.mod_upper_bound; lia|done].
Qed.

(** C2: for a track of length [N >= 1] and a closest waypoint on it,
    the head-selection step takes the bearing [atan2 (dy, dx)] from the
    ego position to the closest waypoint and the yaw extracted from the
    ego quaternion, reduces both into [[0, 2 PI)], folds their absolute
    difference into [[0, PI]] (replacing it by [2 PI] minus itself
    when it exceeds [PI]), and returns [(closest_id + 1) mod N] exactly
    when the folded difference exceeds [PI / 2] and [closest_id]
    otherwise; the selected index is again an index of the track. *)
Theorem select_first_spec (ego : PoseStamped) (track : list Waypoint)
    (closest_id : nat) (wp_closest : Waypoint) :
  (1 <= length track)%nat →
  track !! closest_id = Some wp_closest →
  let ego_pos := get_position (ObjPoseStamped ego) in
  let pos_closest := get_position (ObjWaypoint wp_closest) in
  let o := get_orientation (ObjPoseStamped ego) in
  let bearing := atan2 (py pos_closest - py ego_pos)
                       (px pos_closest - px ego_pos) in
  let yaw := snd (euler_from_quaternion (qx o, qy o, qz o, qw o)) in
  let h := select_first ego (length track) closest_id wp_closest in
  let diff := Rabs (hl_ego_yaw h - hl_heading h) in
  hl_heading h = fmod (bearing + 2 * PI) (2 * PI) ∧
  hl_ego_yaw h = fmod (yaw + 2 * PI) (2 * PI) ∧
  0 <= hl_heading h < 2 * PI ∧
  0 <= hl_ego_yaw h < 2 * PI ∧
  hl_angle h = (if Rlt_dec PI diff then 2 * PI - diff else diff) ∧
  0 <= hl_angle h <= PI ∧
  (PI / 2 < hl_angle h →
     hl_first_id h = ((closest_id + 1) mod length track)%nat) ∧
  (¬ PI / 2 < hl_angle h → hl_first_id h = closest_id) ∧
  (hl_first_id h < length track)%nat.
Proof.
  intros Hlen Hlook ego_pos pos_closest o bearing yaw h diff.
  assert (Hheading : 0 <= hl_heading h < 2 * PI)
    by apply normalize_range, atan2_range.
  assert (Hyaw : 0 <= hl_ego_yaw h < 2 * PI)
    by apply normalize_range, euler_yaw_range.
  pose proof (Rabs_diff_lt _ _ _ Hyaw Hheading) as Hdiff. fold diff in Hdiff.
  assert (Hangle :
    hl_angle h = (if Rlt_dec PI diff then 2 * PI - diff else diff)) by done.
  pose proof (select_first_id ego (length track) closest_id wp_closest) as Hid.
  fold h in Hid.
  repeat split; try done; try lra.
  - rewrite Hangle. destruct (Rlt_dec PI diff); lra.
  - rewrite Hangle. destruct (Rlt_dec PI diff); lra.
  - intros Hbehind. rewrite Hid.
    by destruct (Rlt_dec (PI / 2) (hl_angle h)).
  - intros Hfront. rewrite Hid.
    by destruct (Rlt_dec (PI / 2) (hl_angle h)).
  - apply select_first_lt. by eapply lookup_lt_Some.
Qed.

Lemma tf_EPS_lt_1 : tf_EPS < 1.
Proof.
  unfold tf_EPS.
  assert (H : 2 ^ 3 <= 2 ^ 52) by (apply Rle_pow; [lra|lia]).
  replace (2 ^ 3) with 8 in H by (simpl; lra).
  assert (/ 2 ^ 52 <= / 8) by (apply Rinv_le_contravar; lra).
  lra.
Qed.

(** The identity quaternion has yaw 0. *)
Lemma euler_yaw_identity : snd (euler_from_quaternion (0, 0, 0, 1)) = 0.
Proof.
  pose proof tf_EPS_lt_1 as Heps.
  unfold euler_from_quaternion, quaternion_matrix.
  destruct (Rlt_dec _ tf_EPS) as [Hsmall|_]; [lra|].
  set (s := sqrt _). unfold euler_from_matrix.
  replace (1 - 0 * s * (0 * s) - 0 * s * (0 * s)) with 1 by ring.
  replace (0 * s * (0 * s) + 0 * s * (1 * s)) with 0 by ring.
  replace (1 * 1 + 0 * 0) with 1 by ring. rewrite sqrt_1.
  destruct (Rlt_dec tf_EPS 1) as [_|]; [|lra]. simpl.
  unfold atan2. destruct (Rlt_dec 0 1) as [_|]; [|lra].
  replace (0 / 1) with 0 by field. apply atan_0.
Qed.

Lemma atan2_0_neg (x : R) : x < 0 → atan2 (0 - 0) x = PI.
Proof.
  intros Hx. unfold atan2.
  destruct (Rlt_dec 0 x); [lra|]. destruct (Rlt_dec x 0); [|lra].
  destruct (Rle_dec 0 (0 - 0)); [|lra].
  replace ((0 - 0) / x) with 0 by (field; lra). rewrite atan_0. lra.
Qed.

Lemma fmod_one_turn (a : R) :
  0 <= a < 2 * PI → fmod (a + 2 * PI) (2 * PI) = a.
Proof.
  intros Ha. pose proof PI_RGT_0.
  rewrite (fmod_unique _ _ 1); lra.
Qed.

(** Scenario B: from [(1.05, 0)] with yaw 0 the closest waypoint
    [(1, 0)] lies behind, at bearing [PI]. *)
Lemma square_select_from_B :
  select_first (pose_at 1.05 0) 4 1 (wp_at 1 0) = mkHead PI 0 PI 2.
Proof.
  pose proof PI_RGT_0 as Hpi.
  unfold select_first.
  cbn [get_position get_orientation pose_at wp_at wp_pose ps_pose position
       orientation px py qx qy qz qw].
  rewrite euler_yaw_identity, atan2_0_neg by lra.
  rewrite (fmod_one_turn PI), (fmod_one_turn 0) by lra.
  replace (Rabs (0 - PI)) with PI.
  2:{ rewrite Rabs_left; lra. }
  destruct (Rlt_dec PI PI); [lra|]. destruct (Rlt_dec (PI / 2) PI); [|lra].
  done.
Qed.

Lemma select_first_spec_witness :
  (1 <= length square_track)%nat ∧
  square_track !! 1%nat = Some (wp_at 1 0) ∧
  hl_first_id (select_first (pose_at 1.05 0) (length square_track) 1 (wp_at 1 0))
  = 2%nat.
Proof.
  assert (Hlen : (1 <= length square_track)%nat) by (simpl; lia).
  assert (Hlook : square_track !! 1%nat = Some (wp_at 1 0)) by reflexivity.
  split; [exact Hlen|]. split; [exact Hlook|].
  destruct (select_first_spec (pose_at 1.05 0) square_track 1 (wp_at 1 0)
              Hlen Hlook) as (_ & _ & _ & _ & _ & _ & Hbehind & _).
  rewrite Hbehind; [reflexivity|].
  change (length square_track) with 4%nat.
  rewrite square_select_from_B. simpl. pose proof PI_RGT_0. lra.
Defined.

(** ** The window loop *)

Lemma with_window_same (s : State) :
  with_window (lane_waypoints (final_waypoints s)) s = s.
Proof. by destruct s as [? ? ? ? ? ? [? ?] ? ? ?]. Qed.

Lemma with_window_twice (l1 l2 : list Waypoint) (s : State) :
  with_window l2 (with_window l1 s) = with_window l2 s.
Proof. done. Qed.

Lemma store_final_waypoint_ok (i : nat) (wp : Waypoint) (s : State) :
  (i < length (lane_waypoints (final_waypoints s)))%nat →
  store_final_waypoint i wp s
  = (with_window (<[i := wp]> (lane_waypoints (final_waypoints s))) s, inr tt).
Proof.
  intros Hi. unfold store_final_waypoint, bind, self.
  by rewrite decide_True.
Qed.

Lemma window_loop_step (i : nat) (rest : list nat) (f : nat) (wp : Waypoint)
    (s : State) :
  waypoints s !! f = Some wp →
  (i < length (lane_waypoints (final_waypoints s)))%nat →
  window_loop (i :: rest) f s
  = window_loop rest ((f + 1) mod length (waypoints s))%nat
      (with_window (<[i := wp]> (lane_waypoints (final_waypoints s))) s).
Proof.
  intros Hf Hi. cbn [window_loop]. unfold bind at 1, self.
  unfold bind at 1, index. rewrite Hf. unfold ret.
  unfold bind at 1. by rewrite store_final_waypoint_ok.
Qed.

(** The loop over [i = a, ..., a + k - 1], started with [first_id = f],
    overwrites exactly those positions of the outgoing list, position
    [j] with the waypoint [(f + (j - a)) mod N] of the track. *)
Lemma window_loop_spec (k : nat) : ∀ (a f : nat) (s : State),
  (f < length (waypoints s))%nat →
  (a + k <= length (lane_waypoints (final_waypoints s)))%nat →
  ∃ l, window_loop (seq a k) f s
       = (with_window l s, inr ((f + k) mod length (waypoints s))%nat) ∧
       length l = length (lane_waypoints (final_waypoints s)) ∧
       ∀ j, l !! j
            = if decide (a <= j < a + k)%nat
              then waypoints s !! ((f + (j - a)) mod length (waypoints s))%nat
              else lane_waypoints (final_waypoints s) !! j.
Proof.
  induction k as [|k IH]; intros a f s Hf Ha.
  - exists (lane_waypoints (final_waypoints s)). simpl.
    rewrite with_window_same, Nat.add_0_r, Nat.mod_small by done.
    repeat split. intros j. rewrite decide_False; [done|lia].
  - destruct (lookup_lt_is_Some_2 (waypoints s) f Hf) as [wp Hwp].
    cbn [seq]. rewrite (window_loop_step _ _ _ wp) by (done || lia).
    set (s1 := with_window _ s).
    assert (Hmod : ((f + 1) mod length (waypoints s) < length (waypoints s))%nat)
      by (apply Nat.mod_upper_bound; lia).
    destruct (IH (S a) ((f + 1) mod length (waypoints s))%nat s1)
      as (l & Hrun & Hlen & Hl).
    { done. }
    { subst s1. cbn. rewrite length_insert. lia. }
    exists l. split; [|split].
    + rewrite Hrun. subst s1. rewrite with_window_twice. f_equal. f_equal.
      cbn. rewrite Nat.Div0.add_mod_idemp_l. f_equal. lia.
    + rewrite Hlen. subst s1. cbn. by rewrite length_insert.
    + intros j. rewrite Hl. subst s1. cbn.
      destruct (decide (j = a)) as [->|Hja].
      * rewrite decide_False by lia. rewrite decide_True by lia.
        rewrite list_lookup_insert_eq by lia.
        by rewrite Nat.sub_diag, Nat.add_0_r, Nat.mod_small.
      * rewrite list_lookup_insert_ne by done.
        destruct (decide (a <= j < a + S k)%nat) as [Hin|Hout].
        -- rewrite decide_True by lia.
           rewrite Nat.Div0.add_mod_idemp_l.
           by replace (f + 1 + (j - S a))%nat with (f + (j - a))%nat by lia.
        -- by rewrite decide_False by lia.
Qed.

Lemma build_window_length track head K : length (build_window track head K) = K.
Proof. unfold build_window. by rewrite length_fmap, length_seq. Qed.

Lemma build_window_lookup track head K i :
  track ≠ [] → (i < K)%nat →
  build_window track head K !! i = track !! ((head + i) mod length track)%nat.
Proof.
  intros Hne Hi. unfold build_window.
  rewrite list_lookup_fmap, lookup_seq_lt by done. simpl.
  symmetry. apply list_lookup_lookup_total_lt, Nat.mod_upper_bound.
  destruct track; [done|simpl; lia].
Qed.

(** From a full-length buffer the loop leaves exactly the window of the
    specification, whatever the buffer held before. *)
Lemma window_loop_full (f : nat) (s : State) :
  (f < length (waypoints s))%nat → buffer_ok s →
  window_loop (seq 0 LOOKAHEAD_WPS) f s
  = (with_window (build_window (waypoints s) f LOOKAHEAD_WPS) s,
     inr ((f + LOOKAHEAD_WPS) mod length (waypoints s))%nat).
Proof.
  intros Hf Hbuf. unfold buffer_ok in Hbuf.
  destruct (window_loop_spec LOOKAHEAD_WPS 0 f s Hf) as (l & -> & Hlen & Hl).
  { rewrite Hbuf. lia. }
  do 2 f_equal. apply list_eq. intros j.
  rewrite Hl. destruct (decide (0 <= j < 0 + LOOKAHEAD_WPS)%nat) as [Hin|Hout].
  - rewrite build_window_lookup; [by rewrite Nat.sub_0_r| |lia].
    intros Hnil. rewrite Hnil in Hf. simpl in Hf. lia.
  - rewrite !lookup_ge_None_2; [done|rewrite build_window_length; lia|lia].
Qed.

(** ** Publication *)

Lemma bind_ok {A B} (m : Py A) (k : A → Py B) (s s' : State) (a : A) :
  m s = (s', inr a) → (x <- m ;; k x) s = k a s'.
Proof. intros H. unfold bind. by rewrite H. Qed.

Lemma bind_raise {A B} (m : Py A) (k : A → Py B) (s s' : State) (e : exn) :
  m s = (s', inl e) → (x <- m ;; k x) s = (s', inl e).
Proof. intros H. unfold bind. by rewrite H. Qed.

(** Run the first statement of a method body when it neither raises
    nor needs a side condition. *)
Ltac py_step := erewrite bind_ok by reflexivity.

Lemma index_ok {A} `{Inhabited A} (l : list A) (i : nat) (s : State) :
  (i < length l)%nat → index l i s = (s, inr (l !!! i)).
Proof.
  intros Hi. unfold index.
  by rewrite (list_lookup_lookup_total_lt l i Hi).
Qed.

Lemma publish_from_ok (head : nat) (s : State) :
  (head < length (waypoints s))%nat → buffer_ok s →
  publish_from head s = (after_publish (window_lane s head) s, inr tt).
Proof.
  intros Hhead Hbuf. unfold publish_from.
  py_step.
  erewrite bind_ok by (by apply window_loop_full).
  reflexivity.
Qed.

Lemma publish_waypoints_empty (s : State) :
  waypoints s = [] →
  publish_waypoints s = (s, inl (AssertionError "Track waypoints not set")).
Proof.
  intros Hempty. unfold publish_waypoints.
  py_step.
  apply bind_raise. by rewrite Hempty.
Qed.

Lemma publish_waypoints_ok (s : State) :
  waypoints s ≠ [] → buffer_ok s →
  publish_waypoints s
  = (after_publish (window_lane s (hl_first_id (head_of s)))
       (set_log (log s ++ publish_log s) s), inr tt).
Proof.
  intros Hne Hbuf.
  pose proof (find_closest_lt (get_position (ObjPoseStamped (ego_pose s)))
                (waypoints s) Hne) as Hclosest.
  fold (closest_of s) in Hclosest.
  pose proof (select_first_lt (ego_pose s) _ _
                (waypoints s !!! (closest_of s).1) Hclosest) as Hfirst.
  fold (head_of s) in Hfirst.
  unfold publish_waypoints.
  py_step.
  erewrite bind_ok.
  2:{ unfold py_assert. rewrite bool_decide_true; [reflexivity|lia]. }
  fold (closest_of s). destruct (closest_of s) as [closest_id closest_dist] eqn:Hc.
  simpl in Hclosest, Hfirst.
  unfold VERBOSE, when.
  erewrite bind_ok.
  2:{ erewrite bind_ok by (by apply index_ok). reflexivity. }
  erewrite bind_ok by (by apply index_ok).
  cbn [waypoints set_log ego_pose].
  assert (Hhead : select_first (ego_pose s) (length (waypoints s)) closest_id
                    (waypoints s !!! closest_id) = head_of s)
    by (unfold head_of; by rewrite Hc).
  rewrite Hhead.
  unfold publish_log. rewrite Hc. cbn [fst snd].
  destruct (Rlt_dec (PI / 2) (hl_angle (head_of s))).
  - erewrite bind_ok.
    2:{ erewrite bind_ok by (by apply index_ok). reflexivity. }
    py_step.
    rewrite publish_from_ok by done.
    cbn [set_log log]. by rewrite <- !app_assoc.
  - do 2 py_step.
    rewrite publish_from_ok by done.
    cbn [set_log log]. by rewrite <- !app_assoc.
Qed.

(** C3: for a track of length [N >= 1], a head index on it and an
    outgoing message of the length [__init__] gave it, the publication
    step succeeds and appends one message to the published ones whose
    waypoint list [window] has exactly [K = 200] entries with
    [window[i] = track[(head + i) mod N]] for every [i < K]; started
    from any other state with the same track, whatever its outgoing
    message held from earlier publications, it publishes the same
    [window]. *)
Theorem publish_from_window (s : State) (head : nat) :
  (1 <= length (waypoints s))%nat →
  (head < length (waypoints s))%nat →
  buffer_ok s →
  ∃ window : list Waypoint,
    (publish_from head s).2 = inr tt ∧
    published (publish_from head s).1
    = published s ++ [mkLane (mkHeader (stamp (ps_header (ego_pose s)))) window] ∧
    length window = LOOKAHEAD_WPS ∧
    LOOKAHEAD_WPS = 200%nat ∧
    (∀ i, (i < LOOKAHEAD_WPS)%nat →
          window !! i
          = waypoints s !! ((head + i) mod length (waypoints s))%nat) ∧
    (∀ s', waypoints s' = waypoints s → buffer_ok s' →
           ∃ hdr, published (publish_from head s').1
                  = published s' ++ [mkLane hdr window]).
Proof.
  intros Hlen Hhead Hbuf.
  exists (build_window (waypoints s) head LOOKAHEAD_WPS).
  rewrite publish_from_ok by done.
  split; [done|]. split; [done|].
  split; [apply build_window_length|]. split; [done|]. split.
  - intros i Hi. apply build_window_lookup; [|done].
    intros Hnil. rewrite Hnil in Hlen. simpl in Hlen. lia.
  - intros s' Htrack Hbuf'.
    rewrite publish_from_ok by (by rewrite ?Htrack).
    eexists. unfold window_lane. by rewrite Htrack.
Qed.

Lemma square_loaded_buffer_ok : buffer_ok square_loaded.
Proof. reflexivity. Qed.

Lemma publish_from_window_witness :
  (1 <= length (waypoints square_loaded))%nat ∧
  (2 < length (waypoints square_loaded))%nat ∧
  buffer_ok square_loaded ∧
  ∃ window : list Waypoint,
    (publish_from 2 square_loaded).2 = inr tt ∧
    published (publish_from 2 square_loaded).1
    = published square_loaded
      ++ [mkLane (mkHeader (stamp (ps_header (ego_pose square_loaded)))) window] ∧
    length window = LOOKAHEAD_WPS ∧
    LOOKAHEAD_WPS = 200%nat ∧
    (∀ i, (i < LOOKAHEAD_WPS)%nat →
          window !! i
          = waypoints square_loaded
              !! ((2 + i) mod length (waypoints square_loaded))%nat) ∧
    (∀ s', waypoints s' = waypoints square_loaded → buffer_ok s' →
           ∃ hdr, published (publish_from 2 s').1
                  = published s' ++ [mkLane hdr window]).
Proof.
  assert (H1 : (1 <= length (waypoints square_loaded))%nat) by (simpl; lia).
  assert (H2 : (2 < length (waypoints square_loaded))%nat) by (simpl; lia).
  split; [exact H1|]. split; [exact H2|].
  split; [exact square_loaded_buffer_ok|].
  exact (publish_from_window square_loaded 2 H1 H2 square_loaded_buffer_ok).
Defined.

(** ** Pose updates *)

Lemma pose_cb_reject (msg : PoseStamped) (s : State) :
  distance (get_position (ObjPoseStamped msg))
           (get_position (ObjPoseStamped (ego_pose s))) < MIN_UPDATE_DIST →
  pose_cb msg s
  = (set_log (log s ++ [LogEgoPose msg
                          (distance (get_position (ObjPoseStamped msg))
                             (get_position (ObjPoseStamped (ego_pose s))))]) s,
     inr tt).
Proof.
  intros Hd. unfold pose_cb.
  do 2 py_step.
  by destruct (Rlt_dec _ MIN_UPDATE_DIST).
Qed.

Lemma pose_cb_accept (msg : PoseStamped) (s : State) :
  ¬ distance (get_position (ObjPoseStamped msg))
             (get_position (ObjPoseStamped (ego_pose s))) < MIN_UPDATE_DIST →
  pose_cb msg s = publish_waypoints (accept_pose msg s).
Proof.
  intros Hd. unfold pose_cb.
  do 2 py_step.
  destruct (Rlt_dec _ MIN_UPDATE_DIST); [done|].
  do 2 py_step.
  reflexivity.
Qed.

(** ** Overlay indices *)

Lemma check_waypoint_index_ok (wp_index : Z) (s : State) :
  (0 <= wp_index < Z.of_nat (length (waypoints s)))%Z →
  check_waypoint_index wp_index s = (s, inr tt).
Proof.
  intros [Hlo Hhi]. unfold check_waypoint_index.
  py_step. unfold py_assert.
  by rewrite !bool_decide_true.
Qed.

Lemma check_waypoint_index_fail (wp_index : Z) (s : State) :
  ¬ (0 <= wp_index < Z.of_nat (length (waypoints s)))%Z →
  check_waypoint_index wp_index s
  = (s, inl (AssertionError (invalid_index_msg wp_index))).
Proof.
  intros Hout. unfold check_waypoint_index.
  py_step. unfold py_assert.
  destruct (decide (0 <= wp_index)%Z) as [Hlo|Hlo].
  - rewrite (bool_decide_true _ Hlo), bool_decide_false; [done|lia].
  - by rewrite (bool_decide_false _ Hlo).
Qed.

Lemma traffic_cb_sentinel (s : State) :
  traffic_cb WP_UNDEFINED s = (set_wp_traffic_light WP_UNDEFINED s, inr tt).
Proof. reflexivity. Qed.

Lemma obstacle_cb_sentinel (s : State) :
  obstacle_cb WP_UNDEFINED s = (set_wp_obstacle WP_UNDEFINED s, inr tt).
Proof. reflexivity. Qed.

Lemma traffic_cb_invalid (data : Z) (s : State) :
  data ≠ WP_UNDEFINED →
  ¬ (0 <= data < Z.of_nat (length (waypoints s)))%Z →
  traffic_cb data s
  = (set_wp_traffic_light data s,
     inl (AssertionError (invalid_index_msg data))).
Proof.
  intros Hs Hout. unfold traffic_cb.
  do 2 py_step.
  cbn [wp_traffic_light set_wp_traffic_light]. rewrite decide_True by done.
  apply bind_raise. by rewrite check_waypoint_index_fail.
Qed.

Lemma obstacle_cb_invalid (data : Z) (s : State) :
  data ≠ WP_UNDEFINED →
  ¬ (0 <= data < Z.of_nat (length (waypoints s)))%Z →
  obstacle_cb data s
  = (set_wp_obstacle data s, inl (AssertionError (invalid_index_msg data))).
Proof.
  intros Hs Hout. unfold obstacle_cb.
  do 2 py_step.
  cbn [wp_obstacle set_wp_obstacle]. rewrite decide_True by done.
  apply bind_raise. by rewrite check_waypoint_index_fail.
Qed.

Lemma traffic_cb_valid (data : Z) (s : State) :
  (0 <= data < Z.of_nat (length (waypoints s)))%Z →
  traffic_cb data s
  = (set_wp_traffic_light data s, inl (AttributeError "waypoint")).
Proof.
  intros Hin. unfold traffic_cb.
  do 2 py_step.
  cbn [wp_traffic_light set_wp_traffic_light].
  rewrite decide_True by (unfold WP_UNDEFINED; lia).
  erewrite bind_ok by (by apply check_waypoint_index_ok).
  reflexivity.
Qed.

Lemma obstacle_cb_valid (data : Z) (s : State) :
  (0 <= data < Z.of_nat (length (waypoints s)))%Z →
  obstacle_cb data s
  = (set_wp_obstacle data s, inl (AttributeError "waypoint")).
Proof.
  intros Hin. unfold obstacle_cb.
  do 2 py_step.
  cbn [wp_obstacle set_wp_obstacle].
  rewrite decide_True by (unfold WP_UNDEFINED; lia).
  erewrite bind_ok by (by apply check_waypoint_index_ok).
  reflexivity.
Qed.

(** Whatever the index and however the callback ends, the only
    attribute it changes is the overlay index, which it sets first. *)
Lemma traffic_cb_state (data : Z) (s : State) :
  (traffic_cb data s).1 = set_wp_traffic_light data s.
Proof.
  destruct (decide (data = WP_UNDEFINED)) as [->|Hs]; [done|].
  destruct (decide (0 <= data < Z.of_nat (length (waypoints s)))%Z).
  - by rewrite traffic_cb_valid.
  - by rewrite traffic_cb_invalid.
Qed.

Lemma obstacle_cb_state (data : Z) (s : State) :
  (obstacle_cb data s).1 = set_wp_obstacle data s.
Proof.
  destruct (decide (data = WP_UNDEFINED)) as [->|Hs]; [done|].
  destruct (decide (0 <= data < Z.of_nat (length (waypoints s)))%Z).
  - by rewrite obstacle_cb_valid.
  - by rewrite obstacle_cb_invalid.
Qed.

(** C6: an overlay update with the sentinel [-1] runs no range check
    (it succeeds on every track, the empty one included) and stores the
    sentinel; an update with any other negative value or with a value
    [>= N] ends in the assertion failure of [check_waypoint_index].
    Both hold for the traffic and for the obstacle callback. *)
Theorem overlay_sentinel_and_range (s : State) :
  WP_UNDEFINED = (-1)%Z ∧
  traffic_cb (-1) s = (set_wp_traffic_light WP_UNDEFINED s, inr tt) ∧
  obstacle_cb (-1) s = (set_wp_obstacle WP_UNDEFINED s, inr tt) ∧
  wp_traffic_light (traffic_cb (-1) s).1 = WP_UNDEFINED ∧
  wp_obstacle (obstacle_cb (-1) s).1 = WP_UNDEFINED ∧
  ∀ data : Z,
    data ≠ (-1)%Z →
    (data < 0 ∨ Z.of_nat (length (waypoints s)) <= data)%Z →
    (traffic_cb data s).2 = inl (AssertionError (invalid_index_msg data)) ∧
    (obstacle_cb data s).2 = inl (AssertionError (invalid_index_msg data)).
Proof.
  repeat split; try done.
  - rewrite traffic_cb_invalid; [done|done|lia].
  - rewrite obstacle_cb_invalid; [done|done|lia].
Qed.

(** C8, as the code has it: an overlay update with a value outside
    [[0, N)] other than the sentinel ends in the assertion failure, and
    the rejected value is the stored overlay index afterwards, because
    the callback assigns before it checks; nothing else changes. *)
Theorem overlay_invalid_index_is_stored (s : State) (data : Z) :
  data ≠ WP_UNDEFINED →
  ¬ (0 <= data < Z.of_nat (length (waypoints s)))%Z →
  traffic_cb data s
  = (set_wp_traffic_light data s,
     inl (AssertionError (invalid_index_msg data))) ∧
  wp_traffic_light (traffic_cb data s).1 = data ∧
  obstacle_cb data s
  = (set_wp_obstacle data s, inl (AssertionError (invalid_index_msg data))) ∧
  wp_obstacle (obstacle_cb data s).1 = data.
Proof.
  intros Hs Hout.
  rewrite traffic_cb_invalid, obstacle_cb_invalid by done. done.
Qed.

Lemma overlay_invalid_index_is_stored_witness :
  7%Z ≠ WP_UNDEFINED ∧
  ¬ (0 <= 7 < Z.of_nat (length (waypoints square_loaded)))%Z ∧
  wp_traffic_light (traffic_cb 7 square_loaded).1 = 7%Z ∧
  wp_obstacle (obstacle_cb 7 square_loaded).1 = 7%Z.
Proof.
  assert (H1 : 7%Z ≠ WP_UNDEFINED) by (unfold WP_UNDEFINED; lia).
  assert (H2 : ¬ (0 <= 7 < Z.of_nat (length (waypoints square_loaded)))%Z)
    by (simpl; lia).
  split; [exact H1|]. split; [exact H2|].
  destruct (overlay_invalid_index_is_stored square_loaded 7 H1 H2)
    as (_ & Ht & _ & Ho).
  split; [exact Ht|exact Ho].
Defined.

(** C8 as stated fails: on the four-waypoint track the traffic update
    7 ends in the assertion failure, yet the stored traffic index,
    [-1] before the update, is 7 after it. *)
Lemma overlay_state_not_preserved_on_failure :
  (traffic_cb 7 square_loaded).2
  = inl (AssertionError "Invalid waypoint index (7)") ∧
  wp_traffic_light square_loaded = (-1)%Z ∧
  wp_traffic_light (traffic_cb 7 square_loaded).1 = 7%Z ∧
  wp_traffic_light (traffic_cb 7 square_loaded).1
  ≠ wp_traffic_light square_loaded.
Proof.
  rewrite traffic_cb_invalid; [|unfold WP_UNDEFINED; lia|simpl; lia].
  repeat split; done.
Qed.

(** C9 at a failing input: on the four-waypoint track the traffic
    update 2 and the obstacle update 2, both valid indices, store the
    index, pass the range check and then end in an [AttributeError] at
    the read of [self.waypoint] that prepares the log line; nothing
    is logged. *)
Theorem overlay_valid_index_raises :
  (0 <= 2 < Z.of_nat (length (waypoints square_loaded)))%Z ∧
  traffic_cb 2 square_loaded
  = (set_wp_traffic_light 2 square_loaded, inl (AttributeError "waypoint")) ∧
  log (traffic_cb 2 square_loaded).1 = log square_loaded ∧
  obstacle_cb 2 square_loaded
  = (set_wp_obstacle 2 square_loaded, inl (AttributeError "waypoint")) ∧
  log (obstacle_cb 2 square_loaded).1 = log square_loaded.
Proof.
  assert (H : (0 <= 2 < Z.of_nat (length (waypoints square_loaded)))%Z)
    by (simpl; lia).
  rewrite traffic_cb_valid, obstacle_cb_valid by exact H. done.
Qed.

(** ** The bounded pose history *)

Lemma deque_append_length {A} (maxlen : nat) (q : list A) (a : A) :
  (length (deque_append maxlen q a) <= maxlen)%nat.
Proof. unfold deque_append. rewrite length_drop, length_app. simpl. lia. Qed.

Lemma deque_append_room {A} (maxlen : nat) (q : list A) (a : A) :
  (length q < maxlen)%nat → deque_append maxlen q a = q ++ [a].
Proof.
  intros Hlt. unfold deque_append. rewrite length_app. simpl.
  by replace (length q + 1 - maxlen)%nat with 0%nat by lia.
Qed.

Lemma deque_append_full {A} (maxlen : nat) (q : list A) (a : A) :
  (1 <= maxlen)%nat → length q = maxlen →
  deque_append maxlen q a = drop 1 q ++ [a].
Proof.
  intros Hpos Hfull. unfold deque_append. rewrite length_app. simpl.
  replace (length q + 1 - maxlen)%nat with 1%nat by lia.
  destruct q; [simpl in Hfull; lia|done].
Qed.

(** ** Debounce *)

Lemma sqrt_ge_of_sq (a x : R) : 0 <= a → a * a <= x → a <= sqrt x.
Proof.
  intros Ha Hx. rewrite <- (sqrt_square a Ha). apply sqrt_le_1_alt, Hx.
Qed.

Lemma sqrt_lt_of_sq (a x : R) : 0 < a → x < a * a → sqrt x < a.
Proof.
  intros Ha Hx. destruct (Rle_dec 0 x) as [H0|H0].
  - rewrite <- (sqrt_square a) by lra. apply sqrt_lt_1_alt. lra.
  - rewrite sqrt_neg_0; lra.
Qed.

(** [publish_waypoints] keeps the outgoing message at full length, and
    touches neither the pose, the history nor the track. *)
Lemma publish_waypoints_frame (s : State) :
  buffer_ok s →
  buffer_ok (publish_waypoints s).1 ∧
  ego_pose (publish_waypoints s).1 = ego_pose s ∧
  ego_pose_queue (publish_waypoints s).1 = ego_pose_queue s ∧
  waypoints (publish_waypoints s).1 = waypoints s ∧
  wp_traffic_light (publish_waypoints s).1 = wp_traffic_light s ∧
  wp_obstacle (publish_waypoints s).1 = wp_obstacle s.
Proof.
  intros Hbuf. destruct (decide (waypoints s = [])) as [Hempty|Hne].
  - by rewrite publish_waypoints_empty.
  - rewrite publish_waypoints_ok by done.
    split; [apply build_window_length|done].
Qed.

(** C4: in a state whose outgoing message has the length [__init__]
    gave it, a pose closer than [MIN_UPDATE_DIST = 0.01] to the last
    accepted one is rejected: the callback returns normally, the
    current pose, the history, the track, the overlay indices, the
    outgoing message and the published messages are all unchanged (the
    only trace is the log line written before the test).  A pose at
    distance [>= 0.01] is accepted: it becomes the current pose, it is
    appended to the history, which never exceeds [POSE_QUEUE_SIZE = 50]
    entries, and [publish_waypoints] runs exactly once on that state;
    when the track is not empty this run succeeds and appends exactly
    one message to the published ones. *)
Theorem pose_cb_debounce (msg : PoseStamped) (s : State) :
  buffer_ok s →
  let d := distance (get_position (ObjPoseStamped msg))
                    (get_position (ObjPoseStamped (ego_pose s))) in
  let r := pose_cb msg s in
  (d < MIN_UPDATE_DIST →
     r.2 = inr tt ∧
     ego_pose r.1 = ego_pose s ∧
     ego_pose_queue r.1 = ego_pose_queue s ∧
     published r.1 = published s ∧
     waypoints r.1 = waypoints s ∧
     final_waypoints r.1 = final_waypoints s ∧
     wp_traffic_light r.1 = wp_traffic_light s ∧
     wp_obstacle r.1 = wp_obstacle s) ∧
  (MIN_UPDATE_DIST <= d →
     MIN_UPDATE_DIST = 1 / 100 ∧
     r = publish_waypoints (accept_pose msg s) ∧
     ego_pose r.1 = msg ∧
     ego_pose_queue r.1
     = deque_append POSE_QUEUE_SIZE (ego_pose_queue s) msg ∧
     (length (ego_pose_queue r.1) <= POSE_QUEUE_SIZE)%nat ∧
     (waypoints s ≠ [] →
        r.2 = inr tt ∧ ∃ lane, published r.1 = published s ++ [lane])).
Proof.
  intros Hbuf d r. split; intros Hd; subst r.
  - by rewrite pose_cb_reject.
  - assert (Hacc : ¬ d < MIN_UPDATE_DIST) by lra.
    rewrite pose_cb_accept by done.
    assert (Hbuf' : buffer_ok (accept_pose msg s)) by done.
    destruct (publish_waypoints_frame _ Hbuf') as (_ & -> & -> & _).
    split; [done|]. split; [done|]. split; [done|]. split; [done|].
    split; [apply deque_append_length|].
    intros Hne. rewrite publish_waypoints_ok by done.
    split; [done|]. by eexists.
Qed.

Lemma pose_B_accepted_from_origin :
  MIN_UPDATE_DIST
  <= distance (get_position (ObjPoseStamped (pose_at 1.05 0))) Point_0.
Proof.
  unfold MIN_UPDATE_DIST, distance.
  cbn [get_position pose_at ps_pose position px py pz Point_0].
  apply sqrt_ge_of_sq; lra.
Qed.

Lemma pose_cb_debounce_witness :
  buffer_ok square_loaded ∧
  MIN_UPDATE_DIST
  <= distance (get_position (ObjPoseStamped (pose_at 1.05 0)))
              (get_position (ObjPoseStamped (ego_pose square_loaded))) ∧
  ego_pose (pose_cb (pose_at 1.05 0) square_loaded).1 = pose_at 1.05 0 ∧
  ego_pose_queue (pose_cb (pose_at 1.05 0) square_loaded).1 = [pose_at 1.05 0] ∧
  ∃ lane, published (pose_cb (pose_at 1.05 0) square_loaded).1 = [lane].
Proof.
  pose proof square_loaded_buffer_ok as Hbuf.
  pose proof pose_B_accepted_from_origin as Hd.
  split; [exact Hbuf|]. split; [exact Hd|].
  destruct (pose_cb_debounce (pose_at 1.05 0) square_loaded Hbuf)
    as [_ Hacc].
  destruct (Hacc Hd) as (_ & _ & Hpose & Hqueue & _ & Hpub).
  split; [exact Hpose|]. split; [exact Hqueue|].
  destruct Hpub as (_ & lane & Hlane); [done|].
  exists lane. exact Hlane.
Defined.

(** C5: with an empty track, [publish_waypoints] ends at its first
    statement in the assertion failure and changes nothing, so an
    accepted pose update ends in that failure with the published
    messages and the outgoing message as they were. *)
Theorem publish_on_empty_track_fails (msg : PoseStamped) (s : State) :
  length (waypoints s) = 0%nat →
  MIN_UPDATE_DIST
  <= distance (get_position (ObjPoseStamped msg))
              (get_position (ObjPoseStamped (ego_pose s))) →
  publish_waypoints s = (s, inl (AssertionError "Track waypoints not set")) ∧
  (pose_cb msg s).2 = inl (AssertionError "Track waypoints not set") ∧
  published (pose_cb msg s).1 = published s ∧
  final_waypoints (pose_cb msg s).1 = final_waypoints s.
Proof.
  intros Hlen Hd. apply length_zero_iff_nil in Hlen.
  split; [by apply publish_waypoints_empty|].
  rewrite pose_cb_accept by lra.
  by rewrite publish_waypoints_empty.
Qed.

Lemma publish_on_empty_track_fails_witness :
  length (waypoints (init 0)) = 0%nat ∧
  MIN_UPDATE_DIST
  <= distance (get_position (ObjPoseStamped (pose_at 1.05 0)))
              (get_position (ObjPoseStamped (ego_pose (init 0)))) ∧
  (pose_cb (pose_at 1.05 0) (init 0)).2
  = inl (AssertionError "Track waypoints not set") ∧
  published (pose_cb (pose_at 1.05 0) (init 0)).1 = [].
Proof.
  assert (Hlen : length (waypoints (init 0)) = 0%nat) by reflexivity.
  pose proof pose_B_accepted_from_origin as Hd.
  split; [exact Hlen|]. split; [exact Hd|].
  destruct (publish_on_empty_track_fails (pose_at 1.05 0) (init 0) Hlen Hd)
    as (_ & Hres & Hpub & _).
  split; [exact Hres|exact Hpub].
Defined.

(** ** Invariants of the event loop *)

Lemma init_buffer_ok (now : R) : buffer_ok (init now).
Proof. reflexivity. Qed.

Lemma callback_buffer_ok (e : event) (s : State) :
  buffer_ok s → buffer_ok (callback e s).1.
Proof.
  intros Hbuf. destruct e as [msg|msg velocity|data|data]; simpl.
  - destruct (Rlt_dec (distance (get_position (ObjPoseStamped msg))
                         (get_position (ObjPoseStamped (ego_pose s))))
                      MIN_UPDATE_DIST) as [Hd|Hd].
    + by rewrite pose_cb_reject.
    + rewrite pose_cb_accept by done.
      by apply publish_waypoints_frame.
  - done.
  - by rewrite traffic_cb_state.
  - by rewrite obstacle_cb_state.
Qed.

Lemma spin_buffer_ok (es : list event) : ∀ s : State,
  buffer_ok s → buffer_ok (spin s es).
Proof.
  induction es as [|e es IH]; intros s Hbuf; [done|].
  simpl. by apply IH, callback_buffer_ok.
Qed.

(** Every state the node can be in keeps the outgoing message at the
    length [__init__] gave it. *)
Corollary reachable_buffer_ok (now : R) (es : list event) :
  buffer_ok (spin (init now) es).
Proof. apply spin_buffer_ok, init_buffer_ok. Qed.

Lemma callback_pristine (e : event) (s : State) :
  pristine s → no_pose_accepted e → pristine (callback e s).1.
Proof.
  intros (Hpose & Hqueue & Hpub) He.
  destruct e as [msg|msg velocity|data|data]; simpl.
  - simpl in He. unfold near_origin in He.
    rewrite pose_cb_reject; [done|]. by rewrite Hpose.
  - done.
  - by rewrite traffic_cb_state.
  - by rewrite obstacle_cb_state.
Qed.

Lemma spin_pristine (es : list event) : ∀ s : State,
  pristine s → Forall no_pose_accepted es → pristine (spin s es).
Proof.
  induction es as [|e es IH]; intros s Hs Hes; [done|].
  apply Forall_cons in Hes as [He Hes].
  simpl. apply IH; [by apply callback_pristine|done].
Qed.

(** C10: from start-up on, as long as no pose has been accepted (every
    pose delivered so far lay within 0.01 of the origin; track and
    overlay messages are arbitrary), the stored pose is the default
    pose, whose position is the origin, the history is empty and
    nothing has been published; so a pose within 0.01 of the origin is
    rejected although no pose was accepted before it: the callback
    returns normally, the stored pose stays the default one, the
    history stays empty and nothing is published. *)
Theorem first_pose_near_origin_rejected (now : R) (es : list event)
    (msg : PoseStamped) :
  Forall no_pose_accepted es →
  distance (get_position (ObjPoseStamped msg)) (mkPoint 0 0 0)
  < MIN_UPDATE_DIST →
  let s := spin (init now) es in
  ego_pose (init now) = PoseStamped_0 ∧
  ego_pose s = PoseStamped_0 ∧
  get_position (ObjPoseStamped (ego_pose s)) = mkPoint 0 0 0 ∧
  (pose_cb msg s).2 = inr tt ∧
  ego_pose (pose_cb msg s).1 = PoseStamped_0 ∧
  ego_pose_queue (pose_cb msg s).1 = [] ∧
  published (pose_cb msg s).1 = [].
Proof.
  intros Hes Hnear s.
  assert (Hs : pristine s) by (by apply spin_pristine).
  destruct Hs as (Hpose & Hqueue & Hpub).
  split; [done|]. split; [done|]. split; [by rewrite Hpose|].
  rewrite pose_cb_reject by (by rewrite Hpose).
  by rewrite <- Hpose, <- Hqueue, <- Hpub.
Qed.

Lemma near_origin_example :
  distance (get_position (ObjPoseStamped (pose_at 0.005 0))) (mkPoint 0 0 0)
  < MIN_UPDATE_DIST.
Proof.
  unfold MIN_UPDATE_DIST, distance.
  cbn [get_position pose_at ps_pose position px py pz].
  apply sqrt_lt_of_sq; lra.
Qed.

Lemma first_pose_near_origin_rejected_witness :
  Forall no_pose_accepted
         [EvWaypoints (mkLane Header_0 square_track) 40; EvTraffic 2] ∧
  distance (get_position (ObjPoseStamped (pose_at 0.005 0))) (mkPoint 0 0 0)
  < MIN_UPDATE_DIST ∧
  (pose_cb (pose_at 0.005 0)
     (spin (init 0)
        [EvWaypoints (mkLane Header_0 square_track) 40; EvTraffic 2])).2
  = inr tt ∧
  published
    (pose_cb (pose_at 0.005 0)
       (spin (init 0)
          [EvWaypoints (mkLane Header_0 square_track) 40; EvTraffic 2])).1
  = [].
Proof.
  assert (Hes : Forall no_pose_accepted
                  [EvWaypoints (mkLane Header_0 square_track) 40; EvTraffic 2])
    by (repeat constructor).
  pose proof near_origin_example as Hnear.
  split; [exact Hes|]. split; [exact Hnear|].
  destruct (first_pose_near_origin_rejected 0 _ (pose_at 0.005 0) Hes Hnear)
    as (_ & _ & _ & Hres & _ & _ & Hpub).
  split; [exact Hres|exact Hpub].
Defined.

(** ** Scenario B *)

Lemma square_accept_B_closest :
  closest_of (accept_pose (pose_at 1.05 0) square_loaded)
  = (1%nat, wp_dist (mkPoint 1.05 0 0) (wp_at 1 0)).
Proof. exact square_closest_from_B. Qed.

Lemma square_accept_B_head :
  head_of (accept_pose (pose_at 1.05 0) square_loaded) = mkHead PI 0 PI 2.
Proof.
  unfold head_of. rewrite square_accept_B_closest.
  exact square_select_from_B.
Qed.

(** C7: on the square track [(0,0), (1,0), (1,1), (0,1)], the pose at
    [(1.05, 0)] with yaw 0 is accepted by the freshly loaded node; the
    nearest index is 1, the bearing to it is [atan2 (0, -0.05) = PI],
    the yaw is 0, the folded difference is [PI > PI / 2], the head
    index is 2, and the one message published carries 200 waypoints
    that start [wp2, wp3, wp0, wp1] and continue circularly,
    [window[i] = track[(2 + i) mod 4]]. *)
Theorem scenario_B_window :
  let msg := pose_at 1.05 0 in
  let r := pose_cb msg square_loaded in
  let s1 := accept_pose msg square_loaded in
  waypoints square_loaded = [wp_at 0 0; wp_at 1 0; wp_at 1 1; wp_at 0 1] ∧
  MIN_UPDATE_DIST
  <= distance (get_position (ObjPoseStamped msg))
              (get_position (ObjPoseStamped (ego_pose square_loaded))) ∧
  r.2 = inr tt ∧
  (closest_of s1).1 = 1%nat ∧
  atan2 (0 - 0) (1 - 1.05) = PI ∧
  snd (euler_from_quaternion (0, 0, 0, 1)) = 0 ∧
  hl_heading (head_of s1) = PI ∧
  hl_ego_yaw (head_of s1) = 0 ∧
  hl_angle (head_of s1) = PI ∧
  PI / 2 < hl_angle (head_of s1) ∧
  hl_first_id (head_of s1) = 2%nat ∧
  ∃ window : list Waypoint,
    published r.1 = [mkLane Header_0 window] ∧
    length window = 200%nat ∧
    take 4 window = [wp_at 1 1; wp_at 0 1; wp_at 0 0; wp_at 1 0] ∧
    ∀ i, (i < 200)%nat →
         window !! i
         = [wp_at 0 0; wp_at 1 0; wp_at 1 1; wp_at 0 1] !! ((2 + i) mod 4)%nat.
Proof.
  intros msg r s1. pose proof PI_RGT_0 as Hpi.
  pose proof pose_B_accepted_from_origin as Hd.
  assert (Hrun : r = (after_publish (window_lane s1 2)
                        (set_log (log s1 ++ publish_log s1) s1), inr tt)).
  { subst r s1 msg. rewrite pose_cb_accept.
    - rewrite publish_waypoints_ok; [|done|done].
      by rewrite square_accept_B_head.
    - apply Rle_not_lt, Hd. }
  split; [done|]. split; [exact Hd|]. split; [by rewrite Hrun|].
  subst s1 msg. rewrite square_accept_B_closest, square_accept_B_head.
  split; [done|]. split; [apply atan2_0_neg; lra|].
  split; [apply euler_yaw_identity|].
  split; [done|]. split; [done|]. split; [done|].
  split; [simpl; lra|]. split; [done|].
  exists (build_window square_track 2 LOOKAHEAD_WPS). rewrite Hrun.
  split; [done|]. split; [apply build_window_length|]. split; [done|].
  intros i Hi. by apply (build_window_lookup square_track 2 LOOKAHEAD_WPS).
Qed.

(** ** Overlay indices and the window *)

(** The stored overlay indices are read by no step of the publication:
    a pose update publishes the same messages whether or not an
    overlay update, whatever its value and outcome, came before it. *)
Lemma overlay_does_not_reach_window (msg : PoseStamped) (e : event)
    (s : State) :
  buffer_ok s →
  match e with EvTraffic _ | EvObstacle _ => True | _ => False end →
  published (pose_cb msg (callback e s).1).1 = published (pose_cb msg s).1 ∧
  final_waypoints (pose_cb msg (callback e s).1).1
  = final_waypoints (pose_cb msg s).1.
Proof.
  intros Hbuf He.
  assert (Hcases : ∃ f, (callback e s).1 = f s ∧
            (f = set_wp_traffic_light (match e with EvTraffic d => d | _ => 0%Z end)
             ∨ f = set_wp_obstacle (match e with EvObstacle d => d | _ => 0%Z end))).
  { destruct e as [?|? ?|data|data]; try done; simpl.
    - eexists. split; [apply traffic_cb_state|by left].
    - eexists. split; [apply obstacle_cb_state|by right]. }
  destruct Hcases as (f & -> & Hf).
  set (d := distance (get_position (ObjPoseStamped msg))
                     (get_position (ObjPoseStamped (ego_pose s)))).
  assert (Hd : distance (get_position (ObjPoseStamped msg))
                 (get_position (ObjPoseStamped (ego_pose (f s)))) = d)
    by (by destruct Hf as [->| ->]).
  assert (Hbuf' : buffer_ok (f s)) by (by destruct Hf as [->| ->]).
  destruct (Rlt_dec d MIN_UPDATE_DIST) as [Hlt|Hge].
  - rewrite !pose_cb_reject by (by rewrite ?Hd).
    by destruct Hf as [->| ->].
  - rewrite !pose_cb_accept by (by rewrite ?Hd).
    destruct (decide (waypoints s = [])) as [Hempty|Hne].
    + rewrite !publish_waypoints_empty;
        by destruct Hf as [->| ->].
    + rewrite !publish_waypoints_ok;
        by destruct Hf as [->| ->].
Qed.

(** * Further properties *)

(** ** The Euclidean distance *)

Lemma distance_self (p : Point) : distance p p = 0.
Proof.
  unfold distance.
  replace ((px p - px p) ^ 2 + (py p - py p) ^ 2 + (pz p - pz p) ^ 2)
    with 0 by ring.
  apply sqrt_0.
Qed.

Lemma distance_sym (p q : Point) : distance p q = distance q p.
Proof. unfold distance. f_equal. ring. Qed.

Lemma distance_eq_0 (p q : Point) : distance p q = 0 → p = q.
Proof.
  unfold distance. intros H0. apply sqrt_eq_0 in H0.
  - destruct p as [x1 y1 z1], q as [x2 y2 z2]. cbn [px py pz] in H0.
    pose proof (Rle_0_sqr (x1 - x2)) as Hx.
    pose proof (Rle_0_sqr (y1 - y2)) as Hy.
    pose proof (Rle_0_sqr (z1 - z2)) as Hz.
    rewrite <- !Rsqr_pow2 in H0.
    assert (Hx0 : x1 - x2 = 0) by (apply Rsqr_0_uniq; lra).
    assert (Hy0 : y1 - y2 = 0) by (apply Rsqr_0_uniq; lra).
    assert (Hz0 : z1 - z2 = 0) by (apply Rsqr_0_uniq; lra).
    f_equal; lra.
  - pose proof (pow2_ge_0 (px p - px q)). pose proof (pow2_ge_0 (py p - py q)).
    pose proof (pow2_ge_0 (pz p - pz q)). lra.
Qed.

Lemma sqrt_le_of_sq (y x : R) : 0 <= y → x <= y * y → sqrt x <= y.
Proof.
  intros Hy Hx. rewrite <- (sqrt_square y Hy). apply sqrt_le_1_alt, Hx.
Qed.

Lemma cauchy_schwarz_3 (a1 a2 a3 b1 b2 b3 : R) :
  (a1 * b1 + a2 * b2 + a3 * b3) * (a1 * b1 + a2 * b2 + a3 * b3)
  <= (a1 ^ 2 + a2 ^ 2 + a3 ^ 2) * (b1 ^ 2 + b2 ^ 2 + b3 ^ 2).
Proof.
  pose proof (Rle_0_sqr (a1 * b2 - a2 * b1)).
  pose proof (Rle_0_sqr (a1 * b3 - a3 * b1)).
  pose proof (Rle_0_sqr (a2 * b3 - a3 * b2)).
  unfold Rsqr in *. nra.
Qed.

Lemma distance_triangle (p q r : Point) :
  distance p r <= distance p q + distance q r.
Proof.
  unfold distance.
  set (a1 := px p - px q). set (a2 := py p - py q). set (a3 := pz p - pz q).
  set (b1 := px q - px r). set (b2 := py q - py r). set (b3 := pz q - pz r).
  replace (px p - px r) with (a1 + b1) by (unfold a1, b1; ring).
  replace (py p - py r) with (a2 + b2) by (unfold a2, b2; ring).
  replace (pz p - pz r) with (a3 + b3) by (unfold a3, b3; ring).
  set (A := a1 ^ 2 + a2 ^ 2 + a3 ^ 2). set (B := b1 ^ 2 + b2 ^ 2 + b3 ^ 2).
  assert (HA : 0 <= A).
  { pose proof (pow2_ge_0 a1). pose proof (pow2_ge_0 a2).
    pose proof (pow2_ge_0 a3). unfold A. lra. }
  assert (HB : 0 <= B).
  { pose proof (pow2_ge_0 b1). pose proof (pow2_ge_0 b2).
    pose proof (pow2_ge_0 b3). unfold B. lra. }
  pose proof (sqrt_pos A) as Hsa. pose proof (sqrt_pos B) as Hsb.
  pose proof (sqrt_sqrt A HA) as HsA. pose proof (sqrt_sqrt B HB) as HsB.
  pose proof (cauchy_schwarz_3 a1 a2 a3 b1 b2 b3) as Hcs.
  set (d := a1 * b1 + a2 * b2 + a3 * b3) in *.
  fold A B in Hcs.
  assert (Hprod : 0 <= sqrt A * sqrt B) by (by apply Rmult_le_pos).
  assert (Hd : d <= sqrt A * sqrt B).
  { destruct (Rle_dec d 0) as [Hneg|Hpos]; [lra|].
    apply Rnot_lt_le. intros Hlt.
    assert (Hsq : sqrt A * sqrt B * (sqrt A * sqrt B) < d * d)
      by (apply Rmult_le_0_lt_compat; lra).
    replace (sqrt A * sqrt B * (sqrt A * sqrt B))
      with (sqrt A * sqrt A * (sqrt B * sqrt B)) in Hsq by ring.
    rewrite HsA, HsB in Hsq. lra. }
  apply sqrt_le_of_sq; [lra|].
  replace ((sqrt A + sqrt B) * (sqrt A + sqrt B))
    with (sqrt A * sqrt A + sqrt B * sqrt B + 2 * (sqrt A * sqrt B)) by ring.
  rewrite HsA, HsB. unfold A, B, d in *. nra.
Qed.

(** X1: [distance] is a metric on positions: it is never negative, it
    does not depend on the order of its arguments, it vanishes exactly
    on equal positions, and it satisfies the triangle inequality. *)
Theorem distance_metric (p q r : Point) :
  0 <= distance p q ∧
  distance p q = distance q p ∧
  (distance p q = 0 ↔ p = q) ∧
  distance p r <= distance p q + distance q r.
Proof.
  split; [apply sqrt_pos|]. split; [apply distance_sym|]. split.
  - split; [apply distance_eq_0|]. intros ->. apply distance_self.
  - apply distance_triangle.
Qed.

(** ** Reading the track by index *)

Lemma index_int_ok {A} `{Inhabited A} (l : list A) (i : Z) (s : State) :
  (0 <= i < Z.of_nat (length l))%Z →
  index_int l i s = (s, inr (l !!! Z.to_nat i)).
Proof.
  intros [Hlo Hhi]. unfold index_int. rewrite decide_True by done.
  apply index_ok. lia.
Qed.

Lemma get_waypoint_velocity_ok (wp : Z) (s : State) :
  valid_index s wp →
  get_waypoint_velocity wp s
  = (s, inr (vx (linear (ts_twist (wp_twist (waypoints s !!! Z.to_nat wp)))))).
Proof.
  intros Hv. unfold get_waypoint_velocity.
  erewrite bind_ok by (by apply check_waypoint_index_ok).
  py_step. erewrite bind_ok by (by apply index_int_ok).
  reflexivity.
Qed.

Lemma get_waypoint_velocity_fail (wp : Z) (s : State) :
  ¬ valid_index s wp →
  get_waypoint_velocity wp s
  = (s, inl (AssertionError (invalid_index_msg wp))).
Proof.
  intros Hv. unfold get_waypoint_velocity.
  apply bind_raise. by apply check_waypoint_index_fail.
Qed.

(** ** Path length *)

Lemma path_sum_shift (track : list Waypoint) (l : list Z) : ∀ d : R,
  fold_left (λ acc i, acc + leg track i) l d = d + path_sum track l.
Proof.
  unfold path_sum. induction l as [|i l IH]; intros d; simpl; [lra|].
  rewrite (IH (d + leg track i)), (IH (0 + leg track i)). lra.
Qed.

Lemma path_sum_app (track : list Waypoint) (l1 l2 : list Z) :
  path_sum track (l1 ++ l2) = path_sum track l1 + path_sum track l2.
Proof.
  unfold path_sum at 1. rewrite fold_left_app.
  fold (path_sum track l1). apply path_sum_shift.
Qed.

Lemma path_sum_single (track : list Waypoint) (i : Z) :
  path_sum track [i] = leg track i.
Proof. unfold path_sum. simpl. lra. Qed.

Lemma path_loop_ok (l : list Z) : ∀ (d : R) (s : State),
  (∀ i, i ∈ l → (0 <= i ∧ i + 1 < Z.of_nat (length (waypoints s)))%Z) →
  path_loop l d s = (s, inr (d + path_sum (waypoints s) l)).
Proof.
  induction l as [|i l IH]; intros d s Hl.
  - simpl. unfold ret, path_sum. simpl. do 2 f_equal. lra.
  - destruct (Hl i) as [Hlo Hhi]; [by left|].
    cbn [path_loop]. py_step.
    erewrite bind_ok by (apply index_int_ok; lia).
    erewrite bind_ok by (apply index_int_ok; lia).
    rewrite IH by (intros j Hj; apply Hl; by right).
    change (i :: l) with ([i] ++ l).
    rewrite path_sum_app, path_sum_single. unfold leg, track_pos.
    do 2 f_equal. lra.
Qed.

Lemma distance_path_ok (wp1 wp2 : Z) (s : State) :
  valid_index s wp1 → valid_index s wp2 → (wp1 < wp2)%Z →
  distance_path wp1 wp2 s
  = (s, inr (path_sum (waypoints s) (seqZ wp1 (wp2 - wp1)))).
Proof.
  intros H1 H2 Hlt. unfold distance_path.
  erewrite bind_ok by (by apply check_waypoint_index_ok).
  erewrite bind_ok by (by apply check_waypoint_index_ok).
  erewrite bind_ok by (unfold py_assert; by rewrite bool_decide_true).
  rewrite path_loop_ok.
  - do 2 f_equal. lra.
  - intros i Hi. apply elem_of_seqZ in Hi.
    unfold valid_index in *. lia.
Qed.

(** The straight line between two waypoints is no longer than the legs
    between them. *)
Lemma path_sum_triangle (track : list Waypoint) (a : Z) (n : nat) :
  distance (track_pos track a) (track_pos track (a + Z.of_nat n))
  <= path_sum track (seqZ a (Z.of_nat n)).
Proof.
  induction n as [|n IH].
  - rewrite Z.add_0_r, distance_self. unfold path_sum. simpl. lra.
  - rewrite seqZ_S, path_sum_app, path_sum_single.
    pose proof (distance_triangle (track_pos track a)
                  (track_pos track (a + Z.of_nat n))
                  (track_pos track (a + Z.of_nat (S n)))) as Htri.
    unfold leg.
    replace (a + Z.of_nat n + 1)%Z with (a + Z.of_nat (S n))%Z by lia.
    lra.
Qed.

(** X2: [get_waypoint_velocity] returns the linear x velocity stored
    with the waypoint at a valid index and leaves the node unchanged;
    for every other index it ends in the assertion failure of
    [check_waypoint_index], also for [-1], which is therefore never
    read as "the last waypoint". *)
Theorem get_waypoint_velocity_spec (wp : Z) (s : State) :
  ((0 <= wp < Z.of_nat (length (waypoints s)))%Z →
     ∃ w, waypoints s !! Z.to_nat wp = Some w ∧
          get_waypoint_velocity wp s
          = (s, inr (vx (linear (ts_twist (wp_twist w)))))) ∧
  (¬ (0 <= wp < Z.of_nat (length (waypoints s)))%Z →
     get_waypoint_velocity wp s
     = (s, inl (AssertionError (invalid_index_msg wp)))) ∧
  get_waypoint_velocity (-1) s
  = (s, inl (AssertionError "Invalid waypoint index (-1)")).
Proof.
  split; [|split].
  - intros Hv. exists (waypoints s !!! Z.to_nat wp). split.
    + apply list_lookup_lookup_total_lt. lia.
    + by apply get_waypoint_velocity_ok.
  - apply get_waypoint_velocity_fail.
  - rewrite get_waypoint_velocity_fail; [done|]. unfold valid_index. lia.
Qed.

Lemma get_waypoint_velocity_spec_witness :
  (0 <= 1 < Z.of_nat (length (waypoints square_loaded)))%Z ∧
  get_waypoint_velocity 1 square_loaded = (square_loaded, inr 0) ∧
  ¬ (0 <= 4 < Z.of_nat (length (waypoints square_loaded)))%Z ∧
  get_waypoint_velocity 4 square_loaded
  = (square_loaded, inl (AssertionError "Invalid waypoint index (4)")).
Proof.
  assert (H1 : (0 <= 1 < Z.of_nat (length (waypoints square_loaded)))%Z)
    by (simpl; lia).
  assert (H4 : ¬ (0 <= 4 < Z.of_nat (length (waypoints square_loaded)))%Z)
    by (simpl; lia).
  destruct (get_waypoint_velocity_spec 1 square_loaded) as (Hok & _ & _).
  destruct (get_waypoint_velocity_spec 4 square_loaded) as (_ & Hfail & _).
  split; [exact H1|]. split.
  - destruct (Hok H1) as (w & Hw & ->). simpl in Hw.
    injection Hw as <-. reflexivity.
  - split; [exact H4|]. rewrite (Hfail H4). reflexivity.
Defined.

(** X3: [distance_path] fails before it reads any waypoint unless both
    indices are valid and the first is strictly below the second: an
    invalid first index, then an invalid second index, then an empty or
    reversed interval (also [wp1 = wp2]) each end in an assertion
    failure that names the offending values, and the node is
    unchanged. *)
Theorem distance_path_errors (wp1 wp2 : Z) (s : State) :
  (¬ valid_index s wp1 →
     distance_path wp1 wp2 s
     = (s, inl (AssertionError (invalid_index_msg wp1)))) ∧
  (valid_index s wp1 → ¬ valid_index s wp2 →
     distance_path wp1 wp2 s
     = (s, inl (AssertionError (invalid_index_msg wp2)))) ∧
  (valid_index s wp1 → valid_index s wp2 → (wp2 <= wp1)%Z →
     distance_path wp1 wp2 s
     = (s, inl (AssertionError (invalid_interval_msg wp1 wp2)))).
Proof.
  unfold distance_path. split; [|split].
  - intros H1. apply bind_raise. by apply check_waypoint_index_fail.
  - intros H1 H2.
    erewrite bind_ok by (by apply check_waypoint_index_ok).
    apply bind_raise. by apply check_waypoint_index_fail.
  - intros H1 H2 Hle.
    erewrite bind_ok by (by apply check_waypoint_index_ok).
    erewrite bind_ok by (by apply check_waypoint_index_ok).
    apply bind_raise. unfold py_assert.
    rewrite bool_decide_false; [done|lia].
Qed.

Lemma distance_path_errors_witness :
  valid_index square_loaded 2 ∧ ¬ valid_index square_loaded 4 ∧
  distance_path 4 2 square_loaded
  = (square_loaded, inl (AssertionError "Invalid waypoint index (4)")) ∧
  distance_path 2 4 square_loaded
  = (square_loaded, inl (AssertionError "Invalid waypoint index (4)")) ∧
  distance_path 2 2 square_loaded
  = (square_loaded,
     inl (AssertionError
            "Cannot get distance between waypoints (invalid interval: 2 - 2)")).
Proof.
  assert (H2 : valid_index square_loaded 2) by (unfold valid_index; simpl; lia).
  assert (H4 : ¬ valid_index square_loaded 4)
    by (unfold valid_index; simpl; lia).
  split; [exact H2|]. split; [exact H4|].
  destruct (distance_path_errors 4 2 square_loaded) as (Ha & _ & _).
  destruct (distance_path_errors 2 4 square_loaded) as (_ & Hb & _).
  destruct (distance_path_errors 2 2 square_loaded) as (_ & _ & Hc).
  split; [rewrite (Ha H4); reflexivity|].
  split; [rewrite (Hb H2 H4); reflexivity|].
  rewrite (Hc H2 H2); [reflexivity|lia].
Defined.

(** X4: path lengths add up: for valid indices [wp1 < wp2 < wp3] the
    three calls succeed without changing the node, and the length from
    [wp1] to [wp3] is the sum of the lengths from [wp1] to [wp2] and
    from [wp2] to [wp3]. *)
Theorem distance_path_additive (wp1 wp2 wp3 : Z) (s : State) :
  valid_index s wp1 → valid_index s wp3 → (wp1 < wp2 < wp3)%Z →
  ∃ d12 d23 : R,
    distance_path wp1 wp2 s = (s, inr d12) ∧
    distance_path wp2 wp3 s = (s, inr d23) ∧
    distance_path wp1 wp3 s = (s, inr (d12 + d23)).
Proof.
  intros H1 H3 [H12 H23].
  assert (H2 : valid_index s wp2) by (unfold valid_index in *; lia).
  do 2 eexists.
  rewrite !distance_path_ok by (done || lia).
  split; [done|]. split; [done|].
  replace (wp3 - wp1)%Z with ((wp2 - wp1) + (wp3 - wp2))%Z by lia.
  rewrite seqZ_app by lia. rewrite path_sum_app.
  by replace (wp1 + (wp2 - wp1))%Z with wp2 by lia.
Qed.

Lemma distance_path_additive_witness :
  valid_index square_loaded 0 ∧ valid_index square_loaded 3 ∧
  (0 < 1 < 3)%Z ∧
  ∃ d12 d23 : R,
    distance_path 0 1 square_loaded = (square_loaded, inr d12) ∧
    distance_path 1 3 square_loaded = (square_loaded, inr d23) ∧
    distance_path 0 3 square_loaded = (square_loaded, inr (d12 + d23)).
Proof.
  assert (H0 : valid_index square_loaded 0) by (unfold valid_index; simpl; lia).
  assert (H3 : valid_index square_loaded 3) by (unfold valid_index; simpl; lia).
  assert (Hlt : (0 < 1 < 3)%Z) by lia.
  split; [exact H0|]. split; [exact H3|]. split; [exact Hlt|].
  exact (distance_path_additive 0 1 3 square_loaded H0 H3 Hlt).
Defined.

(** X5: for valid indices [wp1 < wp2], [distance_path] succeeds without
    changing the node and returns a length that is at least the
    straight-line distance between the two waypoints (so it is never
    negative); between neighbours [wp2 = wp1 + 1] it is exactly that
    distance. *)
Theorem distance_path_lower_bound (wp1 wp2 : Z) (s : State) :
  valid_index s wp1 → valid_index s wp2 → (wp1 < wp2)%Z →
  ∃ (w1 w2 : Waypoint) (d : R),
    waypoints s !! Z.to_nat wp1 = Some w1 ∧
    waypoints s !! Z.to_nat wp2 = Some w2 ∧
    distance_path wp1 wp2 s = (s, inr d) ∧
    0 <= distance (position (ps_pose (wp_pose w1)))
                  (position (ps_pose (wp_pose w2))) <= d ∧
    (wp2 = (wp1 + 1)%Z →
     d = distance (position (ps_pose (wp_pose w1)))
                  (position (ps_pose (wp_pose w2)))).
Proof.
  intros H1 H2 Hlt.
  exists (waypoints s !!! Z.to_nat wp1), (waypoints s !!! Z.to_nat wp2).
  eexists. rewrite distance_path_ok by done.
  split; [apply list_lookup_lookup_total_lt; unfold valid_index in *; lia|].
  split; [apply list_lookup_lookup_total_lt; unfold valid_index in *; lia|].
  split; [done|]. split; [split; [apply sqrt_pos|]|].
  - pose proof (path_sum_triangle (waypoints s) wp1 (Z.to_nat (wp2 - wp1)))
      as Htri.
    rewrite Z2Nat.id in Htri by lia.
    by replace (wp1 + (wp2 - wp1))%Z with wp2 in Htri by lia.
  - intros ->. replace (wp1 + 1 - wp1)%Z with 1%Z by lia.
    assert (Hone : seqZ wp1 1 = [wp1]) by (by rewrite seqZ_cons by lia).
    by rewrite Hone, path_sum_single.
Qed.

Lemma distance_path_lower_bound_witness :
  valid_index square_loaded 0 ∧ valid_index square_loaded 2 ∧ (0 < 2)%Z ∧
  ∃ d : R,
    distance_path 0 2 square_loaded = (square_loaded, inr d) ∧
    distance (mkPoint 0 0 0) (mkPoint 1 1 0) <= d.
Proof.
  assert (H0 : valid_index square_loaded 0) by (unfold valid_index; simpl; lia).
  assert (H2 : valid_index square_loaded 2) by (unfold valid_index; simpl; lia).
  assert (Hlt : (0 < 2)%Z) by lia.
  split; [exact H0|]. split; [exact H2|]. split; [exact Hlt|].
  destruct (distance_path_lower_bound 0 2 square_loaded H0 H2 Hlt)
    as (w1 & w2 & d & Hw1 & Hw2 & Hrun & [_ Hle] & _).
  exists d. split; [exact Hrun|].
  simpl in Hw1, Hw2. injection Hw1 as <-. injection Hw2 as <-. exact Hle.
Defined.

(** ** Standing on a waypoint *)




(** ** What one pose update publishes *)

Lemma pose_cb_accept_ok (msg : PoseStamped) (s : State) :
  buffer_ok s → waypoints s ≠ [] →
  ¬ distance (get_position (ObjPoseStamped msg))
             (get_position (ObjPoseStamped (ego_pose s))) < MIN_UPDATE_DIST →
  pose_cb msg s
  = (after_publish
       (window_lane (accept_pose msg s)
          (hl_first_id (head_of (accept_pose msg s))))
       (set_log (log (accept_pose msg s) ++ publish_log (accept_pose msg s))
          (accept_pose msg s)), inr tt).
Proof.
  intros Hbuf Hne Hd. rewrite pose_cb_accept by done.
  by rewrite publish_waypoints_ok.
Qed.

Lemma head_of_lt (s : State) :
  waypoints s ≠ [] → (hl_first_id (head_of s) < length (waypoints s))%nat.
Proof.
  intros Hne. unfold head_of. apply select_first_lt.
  by apply find_closest_lt.
Qed.

Lemma window_lane_full (s : State) (head : nat) : full_lane (window_lane s head).
Proof. apply build_window_length. Qed.

(** A pose update appends at most one message, of full length, to the
    published ones. *)
Lemma nothing_published (l : list Lane) (n : nat) :
  l = l ++ [] ∧ (length (@nil Lane) <= n)%nat ∧ Forall full_lane [].
Proof. rewrite app_nil_r. split; [done|]. split; [simpl; lia|constructor]. Qed.

Lemma pose_cb_published (msg : PoseStamped) (s : State) :
  buffer_ok s →
  ∃ new, published (pose_cb msg s).1 = published s ++ new ∧
         (length new <= 1)%nat ∧ Forall full_lane new.
Proof.
  intros Hbuf.
  destruct (Rlt_dec (distance (get_position (ObjPoseStamped msg))
                       (get_position (ObjPoseStamped (ego_pose s))))
                    MIN_UPDATE_DIST) as [Hd|Hd].
  - exists []. rewrite pose_cb_reject by done. apply nothing_published.
  - destruct (decide (waypoints s = [])) as [Hempty|Hne].
    + exists []. rewrite pose_cb_accept, publish_waypoints_empty by done.
      apply nothing_published.
    + eexists [_]. rewrite pose_cb_accept_ok by done.
      split; [done|]. split; [done|].
      constructor; [apply window_lane_full|constructor].
Qed.

Lemma callback_published (e : event) (s : State) :
  buffer_ok s →
  ∃ new, published (callback e s).1 = published s ++ new ∧
         (length new <= pose_events [e])%nat ∧ Forall full_lane new.
Proof.
  intros Hbuf. destruct e as [msg|msg velocity|data|data]; simpl.
  - by apply pose_cb_published.
  - exists []. apply nothing_published.
  - exists []. rewrite traffic_cb_state. apply nothing_published.
  - exists []. rewrite obstacle_cb_state. apply nothing_published.
Qed.

Lemma pose_events_app (es1 es2 : list event) :
  pose_events (es1 ++ es2) = (pose_events es1 + pose_events es2)%nat.
Proof.
  induction es1 as [|[]] ; simpl; lia.
Qed.

Lemma spin_app (s : State) (es1 es2 : list event) :
  spin s (es1 ++ es2) = spin (spin s es1) es2.
Proof. apply fold_left_app. Qed.

Lemma spin_published (es : list event) : ∀ s : State,
  buffer_ok s →
  ∃ new, published (spin s es) = published s ++ new ∧
         (length new <= pose_events es)%nat ∧ Forall full_lane new.
Proof.
  induction es as [|e es IH]; intros s Hbuf.
  - exists []. apply nothing_published.
  - destruct (callback_published e s Hbuf) as (new1 & Hp1 & Hl1 & Hf1).
    destruct (IH (callback e s).1 (callback_buffer_ok e s Hbuf))
      as (new2 & Hp2 & Hl2 & Hf2).
    exists (new1 ++ new2). change (e :: es) with ([e] ++ es).
    rewrite pose_events_app. cbn [spin fold_left app].
    fold (spin (callback e s).1 es).
    rewrite Hp2, Hp1, <- app_assoc, length_app.
    split; [done|]. split; [lia|]. by apply Forall_app.
Qed.

(** X7: however the events arrive, the node publishes only on pose
    messages and at most once per pose message, never alters or drops
    what it has published before, and every message it publishes
    carries exactly 200 waypoints. *)
Theorem published_grows_by_poses (now : R) (es es' : list event) :
  ∃ new : list Lane,
    published (spin (init now) (es ++ es'))
    = published (spin (init now) es) ++ new ∧
    (length new <= pose_events es')%nat ∧
    Forall (λ lane, length (lane_waypoints lane) = 200%nat) new ∧
    (pose_events es' = 0%nat →
     published (spin (init now) (es ++ es')) = published (spin (init now) es)).
Proof.
  rewrite spin_app.
  destruct (spin_published es' (spin (init now) es)
              (reachable_buffer_ok now es)) as (new & Hp & Hl & Hf).
  exists new. split; [done|]. split; [done|]. split; [done|].
  intros H0. rewrite Hp. destruct new; [by rewrite app_nil_r|].
  simpl in Hl. lia.
Qed.

(** ** The pose history *)

Lemma deque_append_last {A} (maxlen : nat) (q : list A) (a : A) :
  (1 <= maxlen)%nat → last (deque_append maxlen q a) = Some a.
Proof.
  intros Hpos. unfold deque_append.
  rewrite last_lookup, lookup_drop, length_drop, length_app. simpl.
  rewrite lookup_app_r by lia.
  replace (length q + 1 - maxlen
           + Nat.pred (length q + 1 - (length q + 1 - maxlen))
           - length q)%nat with 0%nat by lia.
  done.
Qed.

Lemma spaced_drop (k : nat) (q : list PoseStamped) :
  spaced q → spaced (drop k q).
Proof.
  intros Hq i a b Ha Hb. rewrite lookup_drop in Ha, Hb.
  apply (Hq (k + i)%nat); [done|]. by rewrite <- Nat.add_succ_r.
Qed.

Lemma spaced_snoc (q : list PoseStamped) (a b : PoseStamped) :
  spaced q → last q = Some a →
  MIN_UPDATE_DIST <= distance (get_position (ObjPoseStamped b))
                              (get_position (ObjPoseStamped a)) →
  spaced (q ++ [b]).
Proof.
  intros Hq Hlast Hd i x y Hx Hy. rewrite last_lookup in Hlast.
  assert (Hlen : (0 < length q)%nat).
  { destruct q; [done|simpl; lia]. }
  destruct (decide (S i < length q)%nat) as [Hin|Hout].
  - rewrite lookup_app_l in Hx, Hy by lia. by apply (Hq i).
  - assert (Hi : S i = length q).
    { apply lookup_lt_Some in Hy. rewrite length_app in Hy. simpl in Hy. lia. }
    rewrite lookup_app_l in Hx by lia.
    rewrite lookup_app_r in Hy by lia.
    replace (S i - length q)%nat with 0%nat in Hy by lia.
    injection Hy as <-.
    replace (Nat.pred (length q)) with i in Hlast by lia.
    rewrite Hx in Hlast. by injection Hlast as ->.
Qed.

Lemma accept_history_ok (msg : PoseStamped) (s : State) :
  history_ok s →
  MIN_UPDATE_DIST <= distance (get_position (ObjPoseStamped msg))
                              (get_position (ObjPoseStamped (ego_pose s))) →
  history_ok (accept_pose msg s).
Proof.
  intros (Hlen & Hsp & Hlast) Hd. unfold history_ok. cbn.
  split; [apply deque_append_length|]. split.
  - apply spaced_drop. destruct Hlast as [[Hnil _]|Hlast].
    + rewrite Hnil. intros [|i] a b Ha Hb; done.
    + by eapply spaced_snoc.
  - right. apply deque_append_last. unfold POSE_QUEUE_SIZE. lia.
Qed.

Lemma callback_history_ok (e : event) (s : State) :
  buffer_ok s → history_ok s → history_ok (callback e s).1.
Proof.
  intros Hbuf Hh. destruct e as [msg|msg velocity|data|data]; simpl.
  - destruct (Rlt_dec (distance (get_position (ObjPoseStamped msg))
                         (get_position (ObjPoseStamped (ego_pose s))))
                      MIN_UPDATE_DIST) as [Hd|Hd].
    + by rewrite pose_cb_reject.
    + rewrite pose_cb_accept by done.
      assert (Hacc : history_ok (accept_pose msg s))
        by (apply accept_history_ok; [done|lra]).
      destruct (publish_waypoints_frame (accept_pose msg s))
        as (_ & Hpose & Hqueue & _); [done|].
      unfold history_ok. by rewrite Hpose, Hqueue.
  - done.
  - by rewrite traffic_cb_state.
  - by rewrite obstacle_cb_state.
Qed.

Lemma spin_history_ok (es : list event) : ∀ s : State,
  buffer_ok s → history_ok s → history_ok (spin s es).
Proof.
  induction es as [|e es IH]; intros s Hbuf Hh; [done|].
  simpl. apply IH; [by apply callback_buffer_ok|by apply callback_history_ok].
Qed.

Lemma init_history_ok (now : R) : history_ok (init now).
Proof.
  split; [simpl; lia|]. split; [|by left].
  intros i a b Ha. simpl in Ha. by rewrite lookup_nil in Ha.
Qed.

(** X8: in every state the node can reach, the pose history holds at
    most 50 poses, any two successive entries lie at least 0.01 apart,
    and its newest entry is the current pose; it is empty only while
    the current pose is still the default one. *)
Theorem history_invariant (now : R) (es : list event) :
  let s := spin (init now) es in
  (length (ego_pose_queue s) <= 50)%nat ∧
  (∀ i a b, ego_pose_queue s !! i = Some a →
            ego_pose_queue s !! S i = Some b →
            1 / 100 <= distance (position (ps_pose b)) (position (ps_pose a))) ∧
  (ego_pose_queue s = [] ∧ ego_pose s = PoseStamped_0
   ∨ last (ego_pose_queue s) = Some (ego_pose s)).
Proof.
  exact (spin_history_ok es (init now) (init_buffer_ok now)
           (init_history_ok now)).
Qed.

(** X9: when the history is full (50 entries), an accepted pose drops
    the oldest entry and is appended as the newest; below capacity it
    is only appended.  This holds whether or not the publication that
    follows succeeds. *)
Theorem pose_cb_history_fifo (msg : PoseStamped) (s : State) :
  buffer_ok s →
  MIN_UPDATE_DIST <= distance (get_position (ObjPoseStamped msg))
                              (get_position (ObjPoseStamped (ego_pose s))) →
  (length (ego_pose_queue s) < 50 →
   ego_pose_queue (pose_cb msg s).1 = ego_pose_queue s ++ [msg])%nat ∧
  (length (ego_pose_queue s) = 50%nat →
   ego_pose_queue (pose_cb msg s).1 = drop 1 (ego_pose_queue s) ++ [msg]).
Proof.
  intros Hbuf Hd. rewrite pose_cb_accept by lra.
  destruct (publish_waypoints_frame (accept_pose msg s))
    as (_ & _ & -> & _); [done|].
  cbn. split; intros Hq.
  - by apply deque_append_room.
  - apply deque_append_full; [unfold POSE_QUEUE_SIZE; lia|done].
Qed.

Lemma pose_cb_history_fifo_witness :
  buffer_ok square_loaded ∧
  MIN_UPDATE_DIST
  <= distance (get_position (ObjPoseStamped (pose_at 1.05 0)))
              (get_position (ObjPoseStamped (ego_pose square_loaded))) ∧
  ego_pose_queue (pose_cb (pose_at 1.05 0) square_loaded).1 = [pose_at 1.05 0].
Proof.
  pose proof square_loaded_buffer_ok as Hbuf.
  pose proof pose_B_accepted_from_origin as Hd.
  split; [exact Hbuf|]. split; [exact Hd|].
  destruct (pose_cb_history_fifo (pose_at 1.05 0) square_loaded Hbuf Hd)
    as [Hroom _].
  rewrite Hroom; [reflexivity|simpl; lia].
Defined.

(** ** Debounce across updates *)

(** X10: two pose updates in a row whose positions are less than 0.01
    apart publish at most one message between them: if the first is
    accepted the second is rejected, whatever the track. *)
Theorem close_poses_publish_once (msg1 msg2 : PoseStamped) (s : State) :
  buffer_ok s →
  distance (get_position (ObjPoseStamped msg2))
           (get_position (ObjPoseStamped msg1)) < MIN_UPDATE_DIST →
  (∃ new, published (pose_cb msg2 (pose_cb msg1 s).1).1 = published s ++ new ∧
          (length new <= 1)%nat) ∧
  (MIN_UPDATE_DIST
   <= distance (get_position (ObjPoseStamped msg1))
               (get_position (ObjPoseStamped (ego_pose s))) →
   (pose_cb msg2 (pose_cb msg1 s).1).2 = inr tt ∧
   published (pose_cb msg2 (pose_cb msg1 s).1).1 = published (pose_cb msg1 s).1 ∧
   ego_pose (pose_cb msg2 (pose_cb msg1 s).1).1 = msg1).
Proof.
  intros Hbuf Hclose.
  assert (Haccepted :
    MIN_UPDATE_DIST
    <= distance (get_position (ObjPoseStamped msg1))
                (get_position (ObjPoseStamped (ego_pose s))) →
    pose_cb msg2 (pose_cb msg1 s).1
    = (set_log (log (pose_cb msg1 s).1
                ++ [LogEgoPose msg2
                      (distance (get_position (ObjPoseStamped msg2))
                         (get_position (ObjPoseStamped msg1)))])
         (pose_cb msg1 s).1, inr tt)).
  { intros Hd. rewrite (pose_cb_accept msg1) by lra.
    destruct (publish_waypoints_frame (accept_pose msg1 s))
      as (_ & Hpose & _); [done|].
    rewrite pose_cb_reject by (by rewrite Hpose). by rewrite Hpose. }
  split.
  - destruct (Rlt_dec (distance (get_position (ObjPoseStamped msg1))
                         (get_position (ObjPoseStamped (ego_pose s))))
                      MIN_UPDATE_DIST) as [Hd|Hd].
    + rewrite (pose_cb_reject msg1) by done.
      destruct (pose_cb_published msg2
                  (set_log (log s ++ [LogEgoPose msg1
                     (distance (get_position (ObjPoseStamped msg1))
                        (get_position (ObjPoseStamped (ego_pose s))))]) s))
        as (new & Hp & Hl & _); [done|].
      exists new. by split.
    + rewrite Haccepted by lra. cbn [published set_log fst].
      destruct (pose_cb_published msg1 s Hbuf) as (new & Hp & Hl & _).
      exists new. by split.
  - intros Hd. rewrite Haccepted by done. split; [done|]. split; [done|].
    cbn [ego_pose set_log fst]. rewrite pose_cb_accept by lra.
    by destruct (publish_waypoints_frame (accept_pose msg1 s))
      as (_ & -> & _).
Qed.

Lemma close_poses_publish_once_witness :
  buffer_ok square_loaded ∧
  distance (get_position (ObjPoseStamped (pose_at 1.05 0)))
           (get_position (ObjPoseStamped (pose_at 1.05 0))) < MIN_UPDATE_DIST ∧
  published (pose_cb (pose_at 1.05 0)
               (pose_cb (pose_at 1.05 0) square_loaded).1).1
  = published (pose_cb (pose_at 1.05 0) square_loaded).1.
Proof.
  pose proof square_loaded_buffer_ok as Hbuf.
  assert (Hclose :
    distance (get_position (ObjPoseStamped (pose_at 1.05 0)))
             (get_position (ObjPoseStamped (pose_at 1.05 0))) < MIN_UPDATE_DIST).
  { rewrite distance_self. unfold MIN_UPDATE_DIST. lra. }
  split; [exact Hbuf|]. split; [exact Hclose|].
  destruct (close_poses_publish_once (pose_at 1.05 0) (pose_at 1.05 0)
              square_loaded Hbuf Hclose) as [_ Hacc].
  destruct (Hacc pose_B_accepted_from_origin) as (_ & Hpub & _).
  exact Hpub.
Defined.

(** X11: a pose that was accepted while the track was still empty ends
    in the assertion failure but stays stored as the current pose, so
    after the track has arrived the same pose, or any pose less than
    0.01 from it, is rejected and nothing is published for it. *)
Theorem pose_before_track_is_reference (msg msg' : PoseStamped) (lane : Lane)
    (velocity : R) (s : State) :
  waypoints s = [] →
  MIN_UPDATE_DIST <= distance (get_position (ObjPoseStamped msg))
                              (get_position (ObjPoseStamped (ego_pose s))) →
  distance (get_position (ObjPoseStamped msg'))
           (get_position (ObjPoseStamped msg)) < MIN_UPDATE_DIST →
  let s1 := (pose_cb msg s).1 in
  let s2 := (waypoints_cb lane velocity s1).1 in
  (pose_cb msg s).2 = inl (AssertionError "Track waypoints not set") ∧
  ego_pose s1 = msg ∧
  waypoints s2 = lane_waypoints lane ∧
  (pose_cb msg' s2).2 = inr tt ∧
  published (pose_cb msg' s2).1 = published s ∧
  (pose_cb msg s2).2 = inr tt ∧
  published (pose_cb msg s2).1 = published s.
Proof.
  intros Hempty Hd Hclose s1 s2.
  assert (Hs1 : pose_cb msg s
                = (accept_pose msg s,
                   inl (AssertionError "Track waypoints not set"))).
  { rewrite pose_cb_accept by lra. by rewrite publish_waypoints_empty. }
  subst s2 s1. rewrite Hs1. cbn [fst snd].
  split; [done|]. split; [done|]. split; [done|].
  rewrite !pose_cb_reject; [done| |done].
  cbn. rewrite distance_self. unfold MIN_UPDATE_DIST. lra.
Qed.

Lemma pose_before_track_is_reference_witness :
  waypoints (init 0) = [] ∧
  MIN_UPDATE_DIST
  <= distance (get_position (ObjPoseStamped (pose_at 1.05 0)))
              (get_position (ObjPoseStamped (ego_pose (init 0)))) ∧
  distance (get_position (ObjPoseStamped (pose_at 1.05 0)))
           (get_position (ObjPoseStamped (pose_at 1.05 0))) < MIN_UPDATE_DIST ∧
  published
    (pose_cb (pose_at 1.05 0)
       (waypoints_cb (mkLane Header_0 square_track) 40
          (pose_cb (pose_at 1.05 0) (init 0)).1).1).1 = [].
Proof.
  assert (Hempty : waypoints (init 0) = []) by reflexivity.
  pose proof pose_B_accepted_from_origin as Hd.
  assert (Hclose :
    distance (get_position (ObjPoseStamped (pose_at 1.05 0)))
             (get_position (ObjPoseStamped (pose_at 1.05 0))) < MIN_UPDATE_DIST).
  { rewrite distance_self. unfold MIN_UPDATE_DIST. lra. }
  split; [exact Hempty|]. split; [exact Hd|]. split; [exact Hclose|].
  destruct (pose_before_track_is_reference (pose_at 1.05 0) (pose_at 1.05 0)
              (mkLane Header_0 square_track) 40 (init 0) Hempty Hd Hclose)
    as (_ & _ & _ & _ & Hpub & _).
  exact Hpub.
Defined.

(** ** What an accepted pose publishes *)

Lemma build_window_elem (track : list Waypoint) (head K : nat) (w : Waypoint) :
  track ≠ [] → w ∈ build_window track head K → w ∈ track.
Proof.
  intros Hne Hw. unfold build_window in Hw.
  apply list_elem_of_fmap in Hw as (i & -> & _).
  apply list_elem_of_lookup_total_2, Nat.mod_upper_bound.
  destruct track; [done|simpl; lia].
Qed.

Lemma build_window_periodic (track : list Waypoint) (head K i : nat) :
  track ≠ [] → (i + length track < K)%nat →
  build_window track head K !! (i + length track)%nat
  = build_window track head K !! i.
Proof.
  intros Hne Hi. rewrite !build_window_lookup by (done || lia).
  replace (head + (i + length track))%nat
    with (head + i + 1 * length track)%nat by lia.
  by rewrite Nat.Div0.mod_add.
Qed.

(** X12: an accepted pose on a non-empty track publishes one message
    that carries the time stamp of that pose and is also what the node
    keeps as its outgoing message; its first waypoint is the waypoint
    nearest to the pose or that waypoint's cyclic successor, every
    waypoint in it is a waypoint of the track, unchanged, and its
    content repeats with the period of the track length.  The track
    itself is not modified. *)
Theorem accepted_pose_publishes (msg : PoseStamped) (s : State) :
  buffer_ok s →
  waypoints s ≠ [] →
  MIN_UPDATE_DIST <= distance (get_position (ObjPoseStamped msg))
                              (get_position (ObjPoseStamped (ego_pose s))) →
  ∃ (head : nat) (window : list Waypoint),
    published (pose_cb msg s).1
    = published s ++ [mkLane (mkHeader (stamp (ps_header msg))) window] ∧
    final_waypoints (pose_cb msg s).1
    = mkLane (mkHeader (stamp (ps_header msg))) window ∧
    waypoints (pose_cb msg s).1 = waypoints s ∧
    (head = (find_closest (get_position (ObjPoseStamped msg)) (waypoints s)).1
     ∨ head
       = (((find_closest (get_position (ObjPoseStamped msg)) (waypoints s)).1
           + 1) mod length (waypoints s))%nat) ∧
    window !! 0%nat = waypoints s !! head ∧
    (∀ w, w ∈ window → w ∈ waypoints s) ∧
    (∀ i, (i + length (waypoints s) < 200)%nat →
          window !! (i + length (waypoints s))%nat = window !! i).
Proof.
  intros Hbuf Hne Hd.
  set (s1 := accept_pose msg s).
  assert (Hne1 : waypoints s1 ≠ []) by done.
  exists (hl_first_id (head_of s1)),
         (build_window (waypoints s) (hl_first_id (head_of s1)) LOOKAHEAD_WPS).
  rewrite pose_cb_accept_ok by (done || lra). fold s1.
  split; [done|]. split; [done|]. split; [done|]. split.
  - unfold head_of. rewrite select_first_id.
    destruct (Rlt_dec _ _); [by right|by left].
  - split.
    + rewrite build_window_lookup by (done || (unfold LOOKAHEAD_WPS; lia)).
      rewrite Nat.add_0_r, Nat.mod_small; [done|].
      by apply (head_of_lt s1).
    + split.
      * intros w. by apply build_window_elem.
      * intros i Hi. by apply build_window_periodic.
Qed.

Lemma accepted_pose_publishes_witness :
  buffer_ok square_loaded ∧
  waypoints square_loaded ≠ [] ∧
  MIN_UPDATE_DIST
  <= distance (get_position (ObjPoseStamped (pose_at 1.05 0)))
              (get_position (ObjPoseStamped (ego_pose square_loaded))) ∧
  ∃ window : list Waypoint,
    published (pose_cb (pose_at 1.05 0) square_loaded).1
    = [mkLane Header_0 window] ∧
    ∀ w, w ∈ window → w ∈ square_track.
Proof.
  pose proof square_loaded_buffer_ok as Hbuf.
  assert (Hne : waypoints square_loaded ≠ []) by done.
  pose proof pose_B_accepted_from_origin as Hd.
  split; [exact Hbuf|]. split; [exact Hne|]. split; [exact Hd|].
  destruct (accepted_pose_publishes (pose_at 1.05 0) square_loaded Hbuf Hne Hd)
    as (head & window & Hpub & _ & _ & _ & _ & Helem & _).
  exists window. split; [exact Hpub|exact Helem].
Defined.

(** X13: on a track of a single waypoint every accepted pose, wherever
    it is and whichever way it faces, publishes that waypoint 200
    times. *)
Theorem single_waypoint_track (msg : PoseStamped) (w : Waypoint) (s : State) :
  buffer_ok s →
  waypoints s = [w] →
  MIN_UPDATE_DIST <= distance (get_position (ObjPoseStamped msg))
                              (get_position (ObjPoseStamped (ego_pose s))) →
  (pose_cb msg s).2 = inr tt ∧
  published (pose_cb msg s).1
  = published s ++ [mkLane (mkHeader (stamp (ps_header msg)))
                           (replicate 200 w)].
Proof.
  intros Hbuf Hw Hd.
  assert (Hne : waypoints s ≠ []) by (by rewrite Hw).
  rewrite pose_cb_accept_ok by (done || lra).
  split; [done|]. cbn [fst published after_publish set_published].
  unfold window_lane. cbn [accept_pose waypoints set_ego_pose_queue
    set_ego_pose set_log ego_pose published set_final_waypoints].
  do 3 f_equal. rewrite Hw. apply list_eq. intros i.
  destruct (decide (i < LOOKAHEAD_WPS)%nat) as [Hi|Hi].
  - rewrite build_window_lookup by done.
    rewrite lookup_replicate_2 by done.
    change (length [w]) with 1%nat. by rewrite Nat.mod_1_r.
  - rewrite !lookup_ge_None_2; [done| |].
    + rewrite length_replicate. unfold LOOKAHEAD_WPS in Hi. lia.
    + rewrite build_window_length. lia.
Qed.

Lemma single_waypoint_track_witness :
  buffer_ok (waypoints_cb (mkLane Header_0 [wp_at 1 0]) 40 (init 0)).1 ∧
  waypoints (waypoints_cb (mkLane Header_0 [wp_at 1 0]) 40 (init 0)).1
  = [wp_at 1 0] ∧
  MIN_UPDATE_DIST
  <= distance (get_position (ObjPoseStamped (pose_at 1.05 0)))
       (get_position
          (ObjPoseStamped
             (ego_pose
                (waypoints_cb (mkLane Header_0 [wp_at 1 0]) 40 (init 0)).1))) ∧
  published
    (pose_cb (pose_at 1.05 0)
       (waypoints_cb (mkLane Header_0 [wp_at 1 0]) 40 (init 0)).1).1
  = [mkLane Header_0 (replicate 200 (wp_at 1 0))].
Proof.
  assert (Hbuf : buffer_ok
            (waypoints_cb (mkLane Header_0 [wp_at 1 0]) 40 (init 0)).1)
    by reflexivity.
  assert (Hw : waypoints
            (waypoints_cb (mkLane Header_0 [wp_at 1 0]) 40 (init 0)).1
          = [wp_at 1 0]) by reflexivity.
  pose proof pose_B_accepted_from_origin as Hd.
  split; [exact Hbuf|]. split; [exact Hw|]. split; [exact Hd|].
  destruct (single_waypoint_track (pose_at 1.05 0) (wp_at 1 0) _ Hbuf Hw Hd)
    as [_ Hpub].
  exact Hpub.
Defined.

(** ** Overlay updates among themselves *)

Lemma traffic_cb_outcome (data : Z) (s s' : State) :
  length (waypoints s') = length (waypoints s) →
  (traffic_cb data s').2 = (traffic_cb data s).2.
Proof.
  intros Hlen. destruct (decide (data = WP_UNDEFINED)) as [->|Hs]; [done|].
  destruct (decide (0 <= data < Z.of_nat (length (waypoints s)))%Z).
  - rewrite !traffic_cb_valid by (by rewrite ?Hlen). done.
  - rewrite !traffic_cb_invalid by (by rewrite ?Hlen). done.
Qed.

Lemma obstacle_cb_outcome (data : Z) (s s' : State) :
  length (waypoints s') = length (waypoints s) →
  (obstacle_cb data s').2 = (obstacle_cb data s).2.
Proof.
  intros Hlen. destruct (decide (data = WP_UNDEFINED)) as [->|Hs]; [done|].
  destruct (decide (0 <= data < Z.of_nat (length (waypoints s)))%Z).
  - rewrite !obstacle_cb_valid by (by rewrite ?Hlen). done.
  - rewrite !obstacle_cb_invalid by (by rewrite ?Hlen). done.
Qed.

(** X14: traffic and obstacle updates do not interfere: each leaves
    the other's stored index alone, the outcome of one does not depend
    on whether the other came first, both orders leave the node in the
    same state, and of two traffic updates the later value is the one
    stored, even when the earlier one failed its check. *)
Theorem overlay_updates_independent (a b : Z) (s : State) :
  wp_obstacle (traffic_cb a s).1 = wp_obstacle s ∧
  wp_traffic_light (obstacle_cb b s).1 = wp_traffic_light s ∧
  (obstacle_cb b (traffic_cb a s).1).2 = (obstacle_cb b s).2 ∧
  (traffic_cb a (obstacle_cb b s).1).2 = (traffic_cb a s).2 ∧
  (obstacle_cb b (traffic_cb a s).1).1 = (traffic_cb a (obstacle_cb b s).1).1 ∧
  (traffic_cb b (traffic_cb a s).1).1 = (traffic_cb b s).1 ∧
  (obstacle_cb b (obstacle_cb a s).1).1 = (obstacle_cb b s).1.
Proof.
  rewrite !traffic_cb_state, !obstacle_cb_state.
  split; [done|]. split; [done|].
  split; [by apply obstacle_cb_outcome|].
  split; [by apply traffic_cb_outcome|].
  rewrite ?traffic_cb_state, ?obstacle_cb_state. done.
Qed.

(** ** The geometry of the front-or-behind test *)

Lemma trig_sub_turns (x : R) (n : Z) :
  cos (x - IZR n * (2 * PI)) = cos x ∧ sin (x - IZR n * (2 * PI)) = sin x.
Proof.
  destruct (Z_le_gt_dec 0 n) as [Hn|Hn].
  - assert (Hk : IZR n = INR (Z.to_nat n))
      by (by rewrite INR_IZR_INZ, Z2Nat.id).
    rewrite Hk. set (k := Z.to_nat n). split.
    + rewrite <- (cos_period (x - INR k * (2 * PI)) k). f_equal. ring.
    + rewrite <- (sin_period (x - INR k * (2 * PI)) k). f_equal. ring.
  - assert (Hk : IZR n = - INR (Z.to_nat (- n))).
    { rewrite INR_IZR_INZ, Z2Nat.id by lia. rewrite opp_IZR. ring. }
    rewrite Hk. set (k := Z.to_nat (- n)). split.
    + rewrite <- (cos_period x k). f_equal. ring.
    + rewrite <- (sin_period x k). f_equal. ring.
Qed.

Lemma trig_normalize (a : R) :
  cos (fmod (a + 2 * PI) (2 * PI)) = cos a ∧
  sin (fmod (a + 2 * PI) (2 * PI)) = sin a.
Proof.
  unfold fmod. set (n := Rtrunc _).
  replace (a + 2 * PI - IZR n * (2 * PI)) with (a - IZR (n - 1) * (2 * PI))
    by (rewrite minus_IZR; ring).
  apply trig_sub_turns.
Qed.

Lemma cos_folded (u : R) :
  cos (if Rlt_dec PI (Rabs u) then 2 * PI - Rabs u else Rabs u) = cos u.
Proof.
  assert (Habs : cos (Rabs u) = cos u).
  { unfold Rabs. destruct (Rcase_abs u); [apply cos_neg|done]. }
  destruct (Rlt_dec PI (Rabs u)); [|done].
  rewrite cos_minus, cos_2PI, sin_2PI, Habs. ring.
Qed.

Lemma behind_iff_cos_neg (a : R) : 0 <= a <= PI → (PI / 2 < a ↔ cos a < 0).
Proof.
  intros Ha. pose proof PI_RGT_0. split.
  - intros Hgt. apply cos_lt_0; lra.
  - intros Hcos. apply Rnot_le_lt. intros Hle.
    pose proof (cos_ge_0 a). lra.
Qed.

(** [atan2] returns the polar angle of [(x, y)]. *)
Lemma atan2_polar (y x : R) :
  sqrt (x * x + y * y) * cos (atan2 y x) = x ∧
  sqrt (x * x + y * y) * sin (atan2 y x) = y.
Proof.
  assert (Hside : ∀ t : R, 0 < sqrt (1 + t²)).
  { intros t. apply sqrt_lt_R0. pose proof (Rle_0_sqr t). lra. }
  assert (Hnorm : x ≠ 0 →
            sqrt (x * x + y * y) = Rabs x * sqrt (1 + (y / x)²)).
  { intros Hx. rewrite <- sqrt_Rsqr_abs, <- sqrt_mult_alt by apply Rle_0_sqr.
    f_equal. unfold Rsqr. field. done. }
  unfold atan2.
  destruct (Rlt_dec 0 x) as [Hpos|Hnpos].
  - rewrite Hnorm, Rabs_right, cos_atan, sin_atan by lra.
    pose proof (Hside (y / x)). split; field; repeat split; lra.
  - destruct (Rlt_dec x 0) as [Hneg|Hnneg].
    + rewrite Hnorm, Rabs_left by lra. pose proof (Hside (y / x)).
      destruct (Rle_dec 0 y).
      * rewrite neg_cos, neg_sin, cos_atan, sin_atan. split; field; repeat split; lra.
      * rewrite cos_minus, sin_minus, cos_PI, sin_PI, cos_atan, sin_atan.
        split; field; repeat split; lra.
    + assert (x = 0) by lra. subst x.
      replace (0 * 0 + y * y) with (Rsqr y) by (unfold Rsqr; ring).
      rewrite sqrt_Rsqr_abs.
      destruct (Rlt_dec 0 y) as [Hy|Hy].
      * rewrite cos_PI2, sin_PI2, Rabs_right by lra. lra.
      * destruct (Rlt_dec y 0) as [Hy'|Hy'].
        -- rewrite cos_neg, sin_neg, cos_PI2, sin_PI2, Rabs_left by lra. lra.
        -- assert (y = 0) by lra. subst y.
           rewrite Rabs_R0. lra.
Qed.

Lemma select_first_angle (ego : PoseStamped) (n closest_id : nat)
    (wp_closest : Waypoint) :
  let o := get_orientation (ObjPoseStamped ego) in
  let yaw := snd (euler_from_quaternion (qx o, qy o, qz o, qw o)) in
  let bearing :=
    atan2 (py (get_position (ObjWaypoint wp_closest))
           - py (get_position (ObjPoseStamped ego)))
          (px (get_position (ObjWaypoint wp_closest))
           - px (get_position (ObjPoseStamped ego))) in
  let h := select_first ego n closest_id wp_closest in
  0 <= hl_angle h <= PI ∧
  cos (hl_angle h) = cos yaw * cos bearing + sin yaw * sin bearing.
Proof.
  intros o yaw bearing h.
  set (Y := fmod (yaw + 2 * PI) (2 * PI)).
  set (H := fmod (bearing + 2 * PI) (2 * PI)).
  assert (Hangle : hl_angle h
                   = if Rlt_dec PI (Rabs (Y - H))
                     then 2 * PI - Rabs (Y - H) else Rabs (Y - H)) by done.
  assert (HY : 0 <= Y < 2 * PI) by apply normalize_range, euler_yaw_range.
  assert (HH : 0 <= H < 2 * PI) by apply normalize_range, atan2_range.
  pose proof (Rabs_diff_lt _ _ _ HY HH) as Hdiff.
  split.
  - rewrite Hangle. destruct (Rlt_dec PI (Rabs (Y - H))); lra.
  - rewrite Hangle, cos_folded, cos_minus. unfold Y, H.
    destruct (trig_normalize yaw) as [-> ->].
    by destruct (trig_normalize bearing) as [-> ->].
Qed.

(** X15: the front-or-behind test is a sign test on a projection.
    Unless the ego position coincides with the closest waypoint in x
    and y, the waypoint counts as behind, and the head moves on to
    its cyclic successor, exactly when the vector [(dx, dy)] from the
    ego position to the waypoint has a negative component along the
    heading [(cos yaw, sin yaw)]; otherwise the closest waypoint
    itself heads the window. *)
Theorem behind_is_negative_projection (ego : PoseStamped) (n closest_id : nat)
    (wp_closest : Waypoint) :
  let dx := px (get_position (ObjWaypoint wp_closest))
            - px (get_position (ObjPoseStamped ego)) in
  let dy := py (get_position (ObjWaypoint wp_closest))
            - py (get_position (ObjPoseStamped ego)) in
  let o := get_orientation (ObjPoseStamped ego) in
  let yaw := snd (euler_from_quaternion (qx o, qy o, qz o, qw o)) in
  let h := select_first ego n closest_id wp_closest in
  dx ≠ 0 ∨ dy ≠ 0 →
  (dx * cos yaw + dy * sin yaw < 0 ↔ PI / 2 < hl_angle h) ∧
  (dx * cos yaw + dy * sin yaw < 0 →
   hl_first_id h = ((closest_id + 1) mod n)%nat) ∧
  (0 <= dx * cos yaw + dy * sin yaw → hl_first_id h = closest_id).
Proof.
  intros dx dy o yaw h Hxy.
  destruct (select_first_angle ego n closest_id wp_closest) as [Hrange Hcos].
  fold o yaw h dx dy in Hrange, Hcos.
  destruct (atan2_polar dy dx) as [Hx Hy].
  set (r := sqrt (dx * dx + dy * dy)) in *.
  assert (Hr : 0 < r).
  { apply sqrt_lt_R0. destruct Hxy; nra. }
  assert (Hproj : dx * cos yaw + dy * sin yaw = r * cos (hl_angle h)).
  { rewrite Hcos. set (B := atan2 dy dx) in *.
    replace (r * (cos yaw * cos B + sin yaw * sin B))
      with (r * cos B * cos yaw + r * sin B * sin yaw) by ring.
    by rewrite Hx, Hy. }
  assert (Hiff : dx * cos yaw + dy * sin yaw < 0 ↔ PI / 2 < hl_angle h).
  { rewrite (behind_iff_cos_neg _ Hrange), Hproj. split; intros Hneg; nra. }
  pose proof (select_first_id ego n closest_id wp_closest) as Hid.
  fold h in Hid.
  split; [exact Hiff|]. split.
  - intros Hneg. apply Hiff in Hneg. rewrite Hid.
    by destruct (Rlt_dec (PI / 2) (hl_angle h)).
  - intros Hpos. rewrite Hid.
    destruct (Rlt_dec (PI / 2) (hl_angle h)) as [Hgt|]; [|done].
    apply Hiff in Hgt. lra.
Qed.

Lemma behind_is_negative_projection_witness :
  (px (get_position (ObjWaypoint (wp_at 1 0)))
   - px (get_position (ObjPoseStamped (pose_at 1.05 0))) ≠ 0
   ∨ py (get_position (ObjWaypoint (wp_at 1 0)))
     - py (get_position (ObjPoseStamped (pose_at 1.05 0))) ≠ 0) ∧
  hl_first_id (select_first (pose_at 1.05 0) 4 1 (wp_at 1 0)) = 2%nat.
Proof.
  assert (Hxy :
    px (get_position (ObjWaypoint (wp_at 1 0)))
    - px (get_position (ObjPoseStamped (pose_at 1.05 0))) ≠ 0
    ∨ py (get_position (ObjWaypoint (wp_at 1 0)))
      - py (get_position (ObjPoseStamped (pose_at 1.05 0))) ≠ 0).
  { left. simpl. lra. }
  split; [exact Hxy|].
  destruct (behind_is_negative_projection (pose_at 1.05 0) 4 1 (wp_at 1 0) Hxy)
    as (_ & Hbehind & _).
  rewrite Hbehind; [reflexivity|].
  cbn [get_position get_orientation pose_at wp_at wp_pose ps_pose position
       orientation px py qx qy qz qw].
  rewrite euler_yaw_identity, cos_0, sin_0. lra.
Defined.

(** ** The outgoing message *)

Lemma callback_outgoing (e : event) (s : State) :
  buffer_ok s →
  (published (callback e s).1 = published s ∧
   final_waypoints (callback e s).1 = final_waypoints s)
  ∨ last (published (callback e s).1) = Some (final_waypoints (callback e s).1).
Proof.
  intros Hbuf. destruct e as [msg|msg velocity|data|data]; simpl.
  - destruct (Rlt_dec (distance (get_position (ObjPoseStamped msg))
                         (get_position (ObjPoseStamped (ego_pose s))))
                      MIN_UPDATE_DIST) as [Hd|Hd].
    + left. by rewrite pose_cb_reject.
    + destruct (decide (waypoints s = [])) as [Hempty|Hne].
      * left. by rewrite pose_cb_accept, publish_waypoints_empty.
      * right. rewrite pose_cb_accept_ok by done. apply last_snoc.
  - by left.
  - left. by rewrite traffic_cb_state.
  - left. by rewrite obstacle_cb_state.
Qed.

Lemma spin_outgoing (es : list event) : ∀ s : State,
  buffer_ok s →
  (published s = [] ∨ last (published s) = Some (final_waypoints s)) →
  published (spin s es) = [] ∧ final_waypoints (spin s es) = final_waypoints s
  ∨ last (published (spin s es)) = Some (final_waypoints (spin s es)).
Proof.
  induction es as [|e es IH]; intros s Hbuf Hs.
  - destruct Hs as [Hnil|Hlast]; [by left|by right].
  - simpl. fold (spin (callback e s).1 es).
    pose proof (callback_buffer_ok e s Hbuf) as Hbuf'.
    destruct (callback_outgoing e s Hbuf) as [[Hp Hf]|Hlast].
    + destruct (IH (callback e s).1 Hbuf') as [[Hnil Hsame]|Hl].
      * by rewrite Hp, Hf.
      * left. split; [done|]. by rewrite Hsame.
      * by right.
    + destruct (IH (callback e s).1 Hbuf') as [[Hnil Hsame]|Hl].
      * by right.
      * rewrite Hsame. right.
        assert (Hpre : ∃ new, published (spin (callback e s).1 es)
                              = published (callback e s).1 ++ new)
          by (destruct (spin_published es _ Hbuf') as (new & Hp & _); eauto).
        destruct Hpre as (new & Hp). rewrite Hnil in Hp.
        destruct (published (callback e s).1) eqn:Hpub; [done|].
        by destruct new.
      * by right.
Qed.

(** X16: in every state the node can reach, the outgoing message it
    keeps is the message it published last; before the first
    publication it is still the message of 200 default waypoints that
    [__init__] built. *)
Theorem outgoing_is_last_published (now : R) (es : list event) :
  let s := spin (init now) es in
  published s = [] ∧
  final_waypoints s = mkLane Header_0 (replicate 200 Waypoint_0)
  ∨ last (published s) = Some (final_waypoints s).
Proof.
  apply (spin_outgoing es (init now) (init_buffer_ok now)). by left.
Qed.
